(** * Drive adapter: path resolution, recursive listing and folder tree

    A shallow embedding of three tool handlers of [drive/index.js]:
    [get_folder_id_for_path], [list_folder_recursive] (with its inner
    [traverseFolder]) and [get_folder_tree] (with its inner [buildTree]),
    and, further down, of [download_file], [batch_download], [export_file],
    [delete_shared_drive] and [share_file_or_folder].

    The handlers are asynchronous JavaScript that awaits one Drive request
    after the other, mutates closure variables ([allItems], [visited]),
    writes to the console and may throw.  They are embedded in a small
    state-and-exception monad over a [Machine] that holds the backend state,
    the log of requests sent to the Drive client, the console, and the two
    closure variables of the recursive lister.

    Numbers: [depth] starts at 0 and is only incremented by one, and
    [maxDepth] is only compared with it; both are embedded as [Z] (a
    fractional [maxDepth] bounds the integral [depth] like its ceiling).

    [traverseFolder] and [buildTree] recurse on what the backend answers,
    so their embeddings take a recursion budget; the theorems show that a
    budget of [enough maxDepth] is never used up and that a larger one
    changes nothing. *)

From Stdlib Require Import ZArith Lia Ascii String QArith Qround.
From stdpp Require Import base strings list gmap sets.

Local Open Scope Z_scope.

(** ** Drive resources and requests *)

Definition FOLDER_MIME : string := "application/vnd.google-apps.folder".

(** A file resource as the Drive client returns it ([size] is absent on
    folders, hence optional). *)
Record File := mkFile {
  file_id : string;
  file_name : string;
  file_mimeType : string;
  file_size : option string;
  file_modifiedTime : string;
  file_parents : list string;
  file_trashed : bool
}.

(** A JavaScript [Error]; only its message is observed. *)
Record Error := mkError { message : string }.

(** The [q] parameter of [drive.files.list].  The handlers assemble it as
    text from a fixed set of clause templates joined by [and]; a clause is
    represented by its template and the value spliced into it, and
    [clause_text] gives back the text the source produces.  The source
    splices names and ids between single quotes as they are, so the clauses
    stand for that text as long as the values hold no quote or backslash;
    [text_drive] below is a backend that is sent the text and reads it. *)
Inductive Clause :=
| InParents (parentId : string)
| TrashedIsFalse
| MimeTypeEq (m : string)
| MimeTypeNe (m : string)
| NameEq (n : string).

Definition clause_text (c : Clause) : string :=
  match c with
  | InParents p => "'" +:+ p +:+ "' in parents"
  | TrashedIsFalse => "trashed = false"
  | MimeTypeEq m => "mimeType = '" +:+ m +:+ "'"
  | MimeTypeNe m => "mimeType != '" +:+ m +:+ "'"
  | NameEq n => "name = '" +:+ n +:+ "'"
  end.

Definition q_text (q : list Clause) : string :=
  String.concat " and " (clause_text <$> q).

Record ListParams := mkListParams {
  q : list Clause;
  pageSize : nat;
  orderBy : option string
}.

(** [response.data] of a list request; [files] may be undefined, which the
    handlers guard against with [files && ...] and [files || []]. *)
Record ListResponse := mkListResponse { files : option (list File) }.

(** [requestBody] of [drive.files.create]. *)
Record CreateBody := mkCreateBody {
  body_name : string;
  body_mimeType : string;
  body_parents : list string
}.

(** The three methods of the Drive client the handlers use, over a backend
    state [St].  Listing and reading metadata do not change the backend;
    creating does.  A method either answers or fails with an error, which
    the client library throws. *)
Record Drive (St : Type) := mkDrive {
  files_list : ListParams -> St -> Error + ListResponse;
  files_get : string -> St -> Error + File;
  files_create : CreateBody -> St -> (Error + string) * St
}.
Arguments files_list {St}.
Arguments files_get {St}.
Arguments files_create {St}.

(** ** The machine and its monad *)

Inductive Call :=
| CList (p : ListParams)
| CGet (fileId : string)
| CCreate (b : CreateBody).

(** An item of [list_folder_recursive]: [{...file, path, depth}]. *)
Record Item := mkItem {
  item_file : File;
  item_path : string;
  item_depth : Z
}.

Record Machine (St : Type) := mkMachine {
  backend : St;
  calls : list Call;
  console : list (string * Error);
  allItems : list Item;
  visited : gset string
}.
Arguments mkMachine {St}.
Arguments backend {St}.
Arguments calls {St}.
Arguments console {St}.
Arguments allItems {St}.
Arguments visited {St}.

Definition boot {St} (s : St) : Machine St := mkMachine s [] [] [] ∅.

(** How a computation ends: with a value, with a thrown error, or cut off
    because the recursion budget of the embedding ran out (which the
    theorems below show never happens with a sufficient budget). *)
Inductive Outcome (A : Type) :=
| Ok (a : A)
| Throw (e : Error)
| OutOfFuel.
Arguments Ok {A}.
Arguments Throw {A}.
Arguments OutOfFuel {A}.

Definition M (St A : Type) : Type := Machine St -> Outcome A * Machine St.

Definition ret {St A} (a : A) : M St A := fun m => (Ok a, m).

Definition bind {St A B} (c : M St A) (k : A -> M St B) : M St B :=
  fun m =>
    match c m with
    | (Ok a, m') => k a m'
    | (Throw e, m') => (Throw e, m')
    | (OutOfFuel, m') => (OutOfFuel, m')
    end.

#[global] Instance M_ret {St} : MRet (M St) := fun A => @ret St A.
#[global] Instance M_bind {St} : MBind (M St) := fun A B k c => bind c k.

Definition throw {St A} (e : Error) : M St A := fun m => (Throw e, m).

Definition diverge {St A} : M St A := fun m => (OutOfFuel, m).

(** [try { c } catch (error) { h error }]. *)
Definition try_catch {St A} (c : M St A) (h : Error -> M St A) : M St A :=
  fun m =>
    match c m with
    | (Throw e, m') => h e m'
    | r => r
    end.

(** [for (const x of l) body]. *)
Fixpoint for_of {St A} (l : list A) (body : A -> M St unit) : M St unit :=
  match l with
  | [] => ret tt
  | x :: l' => body x ;; for_of l' body
  end.

(** A [for ... of] loop that updates one local variable [acc]. *)
Fixpoint for_of_acc {St A B} (l : list A) (acc : B) (body : B -> A -> M St B)
  : M St B :=
  match l with
  | [] => ret acc
  | x :: l' => acc' ← body acc x; for_of_acc l' acc' body
  end.

Definition log_call {St} (c : Call) (m : Machine St) : Machine St :=
  mkMachine (backend m) (calls m ++ [c]) (console m) (allItems m) (visited m).

Definition set_backend {St} (s : St) (m : Machine St) : Machine St :=
  mkMachine s (calls m) (console m) (allItems m) (visited m).

(** [console.error(text, error)]. *)
Definition console_error {St} (text : string) (e : Error) : M St unit :=
  fun m => (Ok tt, mkMachine (backend m) (calls m) (console m ++ [(text, e)])
                             (allItems m) (visited m)).

(** [allItems.push(item)]. *)
Definition allItems_push {St} (it : Item) : M St unit :=
  fun m => (Ok tt, mkMachine (backend m) (calls m) (console m)
                             (allItems m ++ [it]) (visited m)).

(** [visited.has(x)] and [visited.add(x)]. *)
Definition visited_has {St} (x : string) : M St bool :=
  fun m => (Ok (bool_decide (x ∈ visited m)), m).

Definition visited_add {St} (x : string) : M St unit :=
  fun m => (Ok tt, mkMachine (backend m) (calls m) (console m) (allItems m)
                             ({[x]} ∪ visited m)).

Definition get_allItems {St} : M St (list Item) :=
  fun m => (Ok (allItems m), m).

(** [const allItems = []; const visited = new Set();]. *)
Definition fresh_locals {St} : M St unit :=
  fun m => (Ok tt, mkMachine (backend m) (calls m) (console m) [] ∅).

Definition of_result {A} (r : Error + A) : Outcome A :=
  match r with
  | inl e => Throw e
  | inr a => Ok a
  end.

(** JavaScript truthiness of a string. *)
Definition truthy (s : string) : bool := negb (String.eqb s "").

(** [path.split('/')]: the pieces between separators, empty ones kept. *)
Fixpoint split_on (sep : ascii) (s : string) : list string :=
  match s with
  | EmptyString => [EmptyString]
  | String c s' =>
      if Ascii.eqb c sep then EmptyString :: split_on sep s'
      else match split_on sep s' with
           | h :: t => String c h :: t
           | [] => [String c EmptyString]
           end
  end.

(** [path.split('/').filter(f => f)]. *)
Definition path_folders (path : string) : list string :=
  List.filter truthy (split_on "/"%char path).

(** A value that may be JavaScript's [null]. *)
Inductive Nullable (A : Type) :=
| null
| value (a : A).
Arguments null {A}.
Arguments value {A}.

(** A node of the folder tree: [{id, name, type, size}] and, only when it was
    assigned, [children] ([None] is a node without that property). *)
#[warnings="-register-all"]
Inductive TreeNode :=
| mkNode (node_id node_name node_type : string) (node_size : option string)
         (node_children : option (list TreeNode)).

Definition node_id (n : TreeNode) : string :=
  match n with mkNode i _ _ _ _ => i end.
Definition node_name (n : TreeNode) : string :=
  match n with mkNode _ nm _ _ _ => nm end.
Definition node_type (n : TreeNode) : string :=
  match n with mkNode _ _ ty _ _ => ty end.
Definition node_size (n : TreeNode) : option string :=
  match n with mkNode _ _ _ sz _ => sz end.
Definition node_children (n : TreeNode) : option (list TreeNode) :=
  match n with mkNode _ _ _ _ ch => ch end.

(** [item.children = children]. *)
Definition set_children (n : TreeNode) (children : list TreeNode) : TreeNode :=
  match n with mkNode i nm ty sz _ => mkNode i nm ty sz (Some children) end.

Section Handlers.
Context {St : Type} (drive : Drive St).

(** [await drive.files.list(params)], [.get], [.create]: the request is
    logged, then answered by the client. *)
Definition drive_files_list (p : ListParams) : M St ListResponse :=
  fun m => (of_result (files_list drive p (backend m)), log_call (CList p) m).

Definition drive_files_get (fileId : string) : M St File :=
  fun m => (of_result (files_get drive fileId (backend m)),
            log_call (CGet fileId) m).

Definition drive_files_create (b : CreateBody) : M St string :=
  fun m =>
    let '(r, s') := files_create drive b (backend m) in
    (of_result r, set_backend s' (log_call (CCreate b) m)).

(** [handleDriveOperation]: log and rethrow.  The client is taken to be
    initialised; [with_client] below is the handler when it may not be. *)
Definition handleDriveOperation {A} (operation : M St A) : M St A :=
  try_catch operation
    (fun error => console_error "Drive operation failed:" error ;; throw error).

(** *** get_folder_id_for_path *)

Record PathResponse := mkPathResponse {
  resp_path : string;
  resp_folderId : string
}.

Definition folder_query (folderName currentParentId : string) : ListParams :=
  mkListParams
    [NameEq folderName; MimeTypeEq FOLDER_MIME; InParents currentParentId;
     TrashedIsFalse]
    1 None.

Definition not_found (folderName path : string) : Error :=
  mkError ("Folder not found: " +:+ folderName +:+ " in path " +:+ path).

(** The body of the [for (const folderName of folders)] loop; it returns
    the new value of [currentParentId]. *)
Definition resolve_step (path : string) (createIfNotExists : bool)
    (currentParentId folderName : string) : M St string :=
  response ← drive_files_list (folder_query folderName currentParentId);
  match files response with
  | Some (f :: _) => ret (file_id f)
  | _ =>
      if createIfNotExists then
        drive_files_create
          (mkCreateBody folderName FOLDER_MIME [currentParentId])
      else throw (not_found folderName path)
  end.

Definition get_folder_id_for_path (path : string) (createIfNotExists : bool)
  : M St PathResponse :=
  handleDriveOperation (
    let folders := path_folders path in
    currentParentId ←
      for_of_acc folders "root" (resolve_step path createIfNotExists);
    ret (mkPathResponse path currentParentId)).

(** *** list_folder_recursive *)

Record ListRecursiveResponse := mkListRecursiveResponse {
  resp_items : list Item;
  resp_count : nat;
  resp_listedFolderId : string;
  resp_maxDepth : Z
}.

Section list_folder_recursive.
Variables (folderId : string) (maxDepth : Z)
          (includeFiles includeFolders : bool) (mimeType : option string).

(** The array [q] of [traverseFolder]. *)
Definition traverse_clauses (parentId : string) : list Clause :=
  [InParents parentId; TrashedIsFalse]
  ++ (if negb includeFiles then [MimeTypeEq FOLDER_MIME] else [])
  ++ (if negb includeFolders && includeFiles
      then [MimeTypeNe FOLDER_MIME] else [])
  ++ (match mimeType with
      | Some mt => if truthy mt && includeFiles then [MimeTypeEq mt] else []
      | None => []
      end).

Definition traverse_query (parentId : string) : ListParams :=
  mkListParams (traverse_clauses parentId) 100 None.

Definition child_path (path : string) (file : File) : string :=
  if truthy path then path +:+ "/" +:+ file_name file else file_name file.

(** The body of the loop over [response.data.files]; [recur] is the
    recursive call. *)
Definition traverse_entry (recur : string -> Z -> string -> M St unit)
    (depth : Z) (path : string) (file : File) : M St unit :=
  let item := mkItem file (child_path path file) depth in
  allItems_push item;;
  if String.eqb (file_mimeType file) FOLDER_MIME
  then recur (file_id file) (depth + 1) (item_path item)
  else ret tt.

Definition traverse_failed (parentId : string) (error : Error)
  : M St unit :=
  console_error ("Error traversing folder " +:+ parentId +:+ ":") error.

Fixpoint traverseFolder (fuel : nat) (parentId : string) (depth : Z)
    (path : string) : M St unit :=
  match fuel with
  | O => diverge
  | Datatypes.S fuel' =>
      seen ← visited_has parentId;
      if (maxDepth <=? depth) || seen then ret tt
      else
        visited_add parentId;;
        try_catch (
          response ← drive_files_list (traverse_query parentId);
          for_of (default [] (files response))
                 (traverse_entry (traverseFolder fuel') depth path))
          (traverse_failed parentId)
  end.

Definition list_folder_recursive (fuel : nat)
  : M St ListRecursiveResponse :=
  handleDriveOperation (
    fresh_locals;;
    traverseFolder fuel folderId 0 "";;
    items ← get_allItems;
    ret (mkListRecursiveResponse items (length items) folderId maxDepth)).

End list_folder_recursive.

(** *** get_folder_tree *)

Record TreeRoot := mkTreeRoot {
  root_id : string;
  root_name : string;
  root_children : Nullable (list TreeNode)
}.

Record TreeResponse := mkTreeResponse { resp_root : TreeRoot }.

Section get_folder_tree.
Variables (folderId : string) (maxDepth : Z) (includeFiles : bool).

Definition tree_query (parentId : string) : ListParams :=
  mkListParams
    ([InParents parentId; TrashedIsFalse]
     ++ (if negb includeFiles then [MimeTypeEq FOLDER_MIME] else []))
    50 (Some "name").

Definition tree_item (file : File) : TreeNode :=
  mkNode (file_id file) (file_name file)
         (if String.eqb (file_mimeType file) FOLDER_MIME
          then "folder" else "file")
         (file_size file) None.

(** [if (children && children.length > 0) item.children = children]. *)
Definition attach_children (item : TreeNode)
    (children : Nullable (list TreeNode)) : TreeNode :=
  match children with
  | value (c :: cs) => set_children item (c :: cs)
  | _ => item
  end.

(** The body of the loop over [response.data.files]; [recur] is the
    recursive call and [items] the array built so far. *)
Definition tree_entry (recur : string -> Z -> M St (Nullable (list TreeNode)))
    (depth : Z) (items : list TreeNode) (file : File)
  : M St (list TreeNode) :=
  let item := tree_item file in
  item' ←
    (if String.eqb (node_type item) "folder" then
       children ← recur (file_id file) (depth + 1);
       ret (attach_children item children)
     else ret item);
  ret (items ++ [item']).

Fixpoint buildTree (fuel : nat) (parentId : string) (depth : Z)
  : M St (Nullable (list TreeNode)) :=
  match fuel with
  | O => diverge
  | Datatypes.S fuel' =>
      if maxDepth <=? depth then ret null
      else
        response ← drive_files_list (tree_query parentId);
        items ← for_of_acc (default [] (files response)) []
                           (tree_entry (buildTree fuel') depth);
        ret (value items)
  end.

Definition get_folder_tree (fuel : nat) : M St TreeResponse :=
  handleDriveOperation (
    rootName ←
      (if negb (String.eqb folderId "root") then
         rootFile ← drive_files_get folderId;
         ret (file_name rootFile)
       else ret "My Drive");
    tree ← buildTree fuel folderId 0;
    ret (mkTreeResponse (mkTreeRoot folderId rootName tree))).

End get_folder_tree.

End Handlers.

(** ** Further tools of the server

    [download_file], [batch_download], [export_file], [delete_shared_drive]
    and [share_file_or_folder] use more of the client than the three
    methods above.  Their requests are kept, in the order they are sent, in
    a log next to the backend state. *)

(** The [responseType] option of a download. *)
Inductive ResponseType := RTtext | RTarraybuffer.

(** [response.data] of a download: a string, or an [ArrayBuffer] with its
    bytes. *)
Inductive Body :=
| BText (s : string)
| BArrayBuffer (bytes : string).

(** What [download_file] may hold in [exportMimeType]: [formatMap] is an
    object literal, so besides its own keys the lookup finds what it
    inherits from [Object.prototype]; after [toLowerCase] the inherited
    names that can still be hit are [constructor] and [__proto__]. *)
Inductive JsMime :=
| MimeStr (s : string)
| ObjectFunction
| ObjectPrototype
| MimeUndefined.

(** What [files.get] answers when asked for the links of a file. *)
Record FileLinks := mkFileLinks {
  links_name : string;
  webViewLink : option string;
  webContentLink : option string
}.

Inductive PermType := PTuser | PTanyone | PTdomain | PTgroup.
Inductive Role := Rreader | Rwriter | Rcommenter | Rowner.

(** The [requestBody] of [permissions.create]: [type] and [role], and the
    properties that were assigned. *)
Record Permission := mkPermission {
  perm_type : PermType;
  perm_role : Role;
  perm_emailAddress : option string;
  perm_domain : option string;
  perm_allowFileDiscovery : option bool
}.

(** A permission as the backend answers with it
    ([id, type, role, emailAddress, domain]). *)
Record PermissionResource := mkPermissionResource {
  granted_id : string;
  granted_type : PermType;
  granted_role : Role;
  granted_emailAddress : option string;
  granted_domain : option string
}.

Inductive Request :=
| RGetMeta (fileId : string)
| RGetLinks (fileId : string)
| RExport (fileId : string) (mimeType : JsMime) (responseType : ResponseType)
| RMedia (fileId : string) (responseType : ResponseType)
| RListAllDrives (p : ListParams)
| RDrivesDelete (driveId : string)
| RPermissionsCreate (fileId : string) (permission : Permission)
    (sendNotificationEmail : bool) (emailMessage : option string).

(** The client with the further methods; [more_core] holds the three of
    [Drive].  The list method here is the one called with
    [supportsAllDrives] and [includeItemsFromAllDrives]. *)
Record DriveMore (St : Type) := mkDriveMore {
  more_core : Drive St;
  files_get_links : string -> St -> Error + FileLinks;
  files_export : string -> JsMime -> ResponseType -> St -> Error + Body;
  files_get_media : string -> ResponseType -> St -> Error + Body;
  files_list_all_drives : ListParams -> St -> Error + ListResponse;
  drives_delete : string -> St -> (Error + unit) * St;
  permissions_create :
    string -> Permission -> bool -> option string -> St
    -> (Error + PermissionResource) * St
}.
Arguments more_core {St}.
Arguments files_get_links {St}.
Arguments files_export {St}.
Arguments files_get_media {St}.
Arguments files_list_all_drives {St}.
Arguments drives_delete {St}.
Arguments permissions_create {St}.

Record Logged (St : Type) := mkLogged {
  store : St;
  requests : list Request
}.
Arguments mkLogged {St}.
Arguments store {St}.
Arguments requests {St}.

(** A request: it is logged, then answered by the client, which may change
    the backend. *)
Definition ask {St A} (r : Request) (answer : St -> (Error + A) * St)
  : M (Logged St) A :=
  fun m =>
    let '(res, s') := answer (store (backend m)) in
    (of_result res,
     set_backend (mkLogged s' (requests (backend m) ++ [r])) m).

(** A request that only reads. *)
Definition ask_read {St A} (r : Request) (answer : St -> Error + A)
  : M (Logged St) A :=
  ask r (fun s => (answer s, s)).

(** *** Strings *)

(** [s.startsWith(p)] is [String.prefix p s]. *)

(** [s.includes(sub)]. *)
Fixpoint includes (sub s : string) : bool :=
  String.prefix sub s
  || match s with
     | EmptyString => false
     | String _ s' => includes sub s'
     end.

(** [s.toLowerCase()] on the letters A to Z.  The other characters that
    JavaScript lowers are not ASCII, and none of them becomes a letter that
    occurs in a key looked up below. *)
Definition lower_char (c : ascii) : ascii :=
  let n := nat_of_ascii c in
  if (65 <=? n)%nat && (n <=? 90)%nat then ascii_of_nat (n + 32) else c.

Fixpoint to_lower (s : string) : string :=
  match s with
  | EmptyString => EmptyString
  | String c s' => String (lower_char c) (to_lower s')
  end.

Definition hex_digit (n : nat) : ascii :=
  match String.get n "0123456789ABCDEF" with
  | Some c => c
  | None => "0"%char
  end.

Definition uri_unreserved (c : ascii) : bool :=
  let n := nat_of_ascii c in
  ((65 <=? n)%nat && (n <=? 90)%nat)
  || ((97 <=? n)%nat && (n <=? 122)%nat)
  || ((48 <=? n)%nat && (n <=? 57)%nat)
  || match String.index 0 (String c EmptyString) "-_.!~*'()" with
     | Some _ => true
     | None => false
     end.

(** [encodeURIComponent(s)] on the bytes of [s]. *)
Fixpoint encodeURIComponent (s : string) : string :=
  match s with
  | EmptyString => EmptyString
  | String c s' =>
      if uri_unreserved c then String c (encodeURIComponent s')
      else
        let n := nat_of_ascii c in
        String "%"%char
          (String (hex_digit (n / 16))
             (String (hex_digit (n mod 16)) (encodeURIComponent s')))
  end.

Definition b64_digit (n : nat) : ascii :=
  match
    String.get n
      "ABCDEFGHIJKLMNOPQRSTUVWXYZabcdefghijklmnopqrstuvwxyz0123456789+/"
  with
  | Some c => c
  | None => "="%char
  end.

(** [Buffer.from(bytes).toString('base64')]. *)
Fixpoint base64 (s : string) : string :=
  match s with
  | EmptyString => EmptyString
  | String a EmptyString =>
      let x := nat_of_ascii a in
      String (b64_digit (x / 4))
        (String (b64_digit ((x mod 4) * 16)) "==")
  | String a (String b EmptyString) =>
      let x := nat_of_ascii a in
      let y := nat_of_ascii b in
      String (b64_digit (x / 4))
        (String (b64_digit ((x mod 4) * 16 + y / 16))
           (String (b64_digit ((y mod 16) * 4)) "="))
  | String a (String b (String c rest)) =>
      let x := nat_of_ascii a in
      let y := nat_of_ascii b in
      let z := nat_of_ascii c in
      String (b64_digit (x / 4))
        (String (b64_digit ((x mod 4) * 16 + y / 16))
           (String (b64_digit ((y mod 16) * 4 + z / 64))
              (String (b64_digit (z mod 64)) (base64 rest))))
  end.

(** [Buffer.from(data)] takes the bytes of an [ArrayBuffer] and the UTF-8
    bytes of a string. *)
Definition body_bytes (b : Body) : string :=
  match b with
  | BText s => s
  | BArrayBuffer bytes => bytes
  end.

Definition WORKSPACE_PREFIX : string := "application/vnd.google-apps.".

(** *** Export formats *)

(** The [formatMap] of [download_file] and [export_file]. *)
Definition formatMap : list (string * string) :=
  [("pdf", "application/pdf");
   ("docx", "application/vnd.openxmlformats-officedocument.wordprocessingml.document");
   ("xlsx", "application/vnd.openxmlformats-officedocument.spreadsheetml.sheet");
   ("pptx", "application/vnd.openxmlformats-officedocument.presentationml.presentation");
   ("txt", "text/plain");
   ("html", "text/html");
   ("rtf", "application/rtf");
   ("odt", "application/vnd.oasis.opendocument.text");
   ("ods", "application/vnd.oasis.opendocument.spreadsheet");
   ("csv", "text/csv");
   ("tsv", "text/tab-separated-values");
   ("jpeg", "image/jpeg");
   ("png", "image/png");
   ("svg", "image/svg+xml")].

Fixpoint own_property (key : string) (obj : list (string * string))
  : option string :=
  match obj with
  | [] => None
  | (k, v) :: rest => if String.eqb k key then Some v else own_property key rest
  end.

(** [formatMap[key]]. *)
Definition formatMap_get (key : string) : JsMime :=
  match own_property key formatMap with
  | Some v => MimeStr v
  | None =>
      if String.eqb key "constructor" then ObjectFunction
      else if String.eqb key "__proto__" then ObjectPrototype
      else MimeUndefined
  end.

(** The optional argument [exportFormat], when it is truthy. *)
Definition given (exportFormat : option string) : option string :=
  match exportFormat with
  | Some ef => if truthy ef then Some ef else None
  | None => None
  end.

(** [exportMimeType] of [download_file] for a Workspace file. *)
Definition download_export_mime (mimeType : string)
    (exportFormat : option string) : JsMime :=
  match given exportFormat with
  | None =>
      MimeStr (if includes "document" mimeType then "text/plain"
               else if includes "spreadsheet" mimeType then "text/csv"
               else if includes "presentation" mimeType then "text/plain"
               else if includes "drawing" mimeType then "image/png"
               else "text/plain")
  | Some ef =>
      match formatMap_get (to_lower ef) with
      | MimeUndefined => MimeStr ef
      | v => v
      end
  end.

(** [exportMimeType] of [batch_download] for a Workspace file. *)
Definition batch_export_mime (mimeType : string)
    (exportFormat : option string) : string :=
  match given exportFormat with
  | None =>
      if includes "document" mimeType then "text/plain"
      else if includes "spreadsheet" mimeType then "text/csv"
      else if includes "presentation" mimeType then "text/plain"
      else "text/plain"
  | Some ef => ef
  end.

Inductive DownloadFormat := DFtext | DFbinary | DFbase64.
Inductive BatchFormat := BFtext | BFbase64.

Inductive ExportFormat :=
| EFpdf | EFdocx | EFxlsx | EFpptx | EFtxt | EFhtml | EFrtf
| EFodt | EFods | EFcsv | EFtsv | EFjpeg | EFpng | EFsvg.

Definition export_format_name (f : ExportFormat) : string :=
  match f with
  | EFpdf => "pdf" | EFdocx => "docx" | EFxlsx => "xlsx" | EFpptx => "pptx"
  | EFtxt => "txt" | EFhtml => "html" | EFrtf => "rtf" | EFodt => "odt"
  | EFods => "ods" | EFcsv => "csv" | EFtsv => "tsv" | EFjpeg => "jpeg"
  | EFpng => "png" | EFsvg => "svg"
  end.

Inductive ReturnAs := RAurl | RAbase64 | RAcontent.

Record DownloadResponse := mkDownloadResponse {
  dl_name : string;
  dl_content : Body;
  dl_mimeType : JsMime;
  dl_format : DownloadFormat;
  dl_size : option string
}.

Record Downloaded := mkDownloaded {
  got_fileId : string;
  got_name : string;
  got_content : Body;
  got_mimeType : string;
  got_size : option string
}.

Record NotDownloaded := mkNotDownloaded {
  lost_fileId : string;
  lost_error : string
}.

Record BatchResponse := mkBatchResponse {
  batch_downloaded : list Downloaded;
  batch_failed : list NotDownloaded;
  batch_totalRequested : nat;
  batch_successCount : nat;
  batch_errorCount : nat
}.

Inductive ExportResponse :=
| ExportUrl (name : string) (format : ExportFormat) (exportUrl : string)
    (mimeType : JsMime)
| ExportContent (name : string) (format : ExportFormat) (content : Body)
    (mimeType : JsMime) (returnAs : ReturnAs).

Record DeleteDriveResponse := mkDeleteDriveResponse {
  deleted_message : string;
  deleted_driveId : string
}.

Record ShareResponse := mkShareResponse {
  share_message : string;
  share_permission : PermissionResource;
  share_sharingUrl : option string;
  share_downloadUrl : option string;
  share_fileName : string
}.

Section MoreHandlers.
Context {St : Type} (drive : DriveMore St).

Definition get_meta (fileId : string) : M (Logged St) File :=
  ask_read (RGetMeta fileId) (files_get (more_core drive) fileId).

Definition get_links (fileId : string) : M (Logged St) FileLinks :=
  ask_read (RGetLinks fileId) (files_get_links drive fileId).

Definition export (fileId : string) (mimeType : JsMime) (rt : ResponseType)
  : M (Logged St) Body :=
  ask_read (RExport fileId mimeType rt) (files_export drive fileId mimeType rt).

Definition get_media (fileId : string) (rt : ResponseType)
  : M (Logged St) Body :=
  ask_read (RMedia fileId rt) (files_get_media drive fileId rt).

(** *** download_file *)

Definition download_response_type (format : DownloadFormat) : ResponseType :=
  match format with
  | DFbinary | DFbase64 => RTarraybuffer
  | DFtext => RTtext
  end.

(** [if (format === 'base64' && responseType === 'arraybuffer') content =
    Buffer.from(response.data).toString('base64')]. *)
Definition download_content (format : DownloadFormat) (rt : ResponseType)
    (data : Body) : Body :=
  match format, rt with
  | DFbase64, RTarraybuffer => BText (base64 (body_bytes data))
  | _, _ => data
  end.

Definition download_file (fileId : string) (format : DownloadFormat)
    (exportFormat : option string) : M (Logged St) DownloadResponse :=
  handleDriveOperation (
    meta ← get_meta fileId;
    let mimeType := file_mimeType meta in
    let fileName := file_name meta in
    if String.prefix WORKSPACE_PREFIX mimeType then
      let exportMimeType := download_export_mime mimeType exportFormat in
      let responseType := download_response_type format in
      data ← export fileId exportMimeType responseType;
      ret (mkDownloadResponse fileName
             (download_content format responseType data)
             exportMimeType format (file_size meta))
    else
      let responseType := download_response_type format in
      data ← get_media fileId responseType;
      ret (mkDownloadResponse fileName
             (download_content format responseType data)
             (MimeStr mimeType) format (file_size meta))).

(** *** batch_download *)

Definition batch_response_type (format : BatchFormat) : ResponseType :=
  match format with
  | BFbase64 => RTarraybuffer
  | BFtext => RTtext
  end.

(** [if (format === 'base64' && content instanceof ArrayBuffer) content =
    Buffer.from(content).toString('base64')]. *)
Definition batch_content (format : BatchFormat) (content : Body) : Body :=
  match format, content with
  | BFbase64, BArrayBuffer bytes => BText (base64 bytes)
  | _, _ => content
  end.

(** The [try] block of the loop, up to the value pushed on [results]. *)
Definition batch_fetch (format : BatchFormat) (exportFormat : option string)
    (fileId : string) : M (Logged St) Downloaded :=
  meta ← get_meta fileId;
  let mimeType := file_mimeType meta in
  let fileName := file_name meta in
  '(content, downloadMimeType) ←
    (if String.prefix WORKSPACE_PREFIX mimeType then
       let exportMimeType := batch_export_mime mimeType exportFormat in
       data ← export fileId (MimeStr exportMimeType)
                     (batch_response_type format);
       ret (data, exportMimeType)
     else
       data ← get_media fileId (batch_response_type format);
       ret (data, mimeType));
  ret (mkDownloaded fileId fileName (batch_content format content)
                    downloadMimeType (file_size meta)).

(** One round of the loop over [fileIds], on the arrays [results] and
    [errors]. *)
Definition batch_round (format : BatchFormat) (exportFormat : option string)
    (arrays : list Downloaded * list NotDownloaded) (fileId : string)
  : M (Logged St) (list Downloaded * list NotDownloaded) :=
  try_catch
    (got ← batch_fetch format exportFormat fileId;
     ret (fst arrays ++ [got], snd arrays))
    (fun error =>
       ret (fst arrays, snd arrays ++ [mkNotDownloaded fileId (message error)])).

Definition batch_download (fileIds : list string) (format : BatchFormat)
    (exportFormat : option string) : M (Logged St) BatchResponse :=
  handleDriveOperation (
    arrays ← for_of_acc fileIds ([], []) (batch_round format exportFormat);
    ret (mkBatchResponse (fst arrays) (snd arrays) (length fileIds)
                         (length (fst arrays)) (length (snd arrays)))).

(** *** export_file *)

Definition NOT_WORKSPACE : Error :=
  mkError "Export is only available for Google Workspace files (Docs, Sheets, Slides, etc.)".

(** The string a value becomes when spliced into a template. *)
Definition mime_text (v : JsMime) : string :=
  match v with
  | MimeStr s => s
  | ObjectFunction => "function Object() { [native code] }"
  | ObjectPrototype => "[object Object]"
  | MimeUndefined => "undefined"
  end.

Definition export_url (fileId : string) (exportMimeType : JsMime) : string :=
  "https://www.googleapis.com/drive/v3/files/" +:+ fileId
  +:+ "/export?mimeType=" +:+ encodeURIComponent (mime_text exportMimeType).

Definition export_file (fileId : string) (format : ExportFormat)
    (returnAs : ReturnAs) : M (Logged St) ExportResponse :=
  handleDriveOperation (
    meta ← get_meta fileId;
    let fileName := file_name meta in
    let mimeType := file_mimeType meta in
    if negb (String.prefix WORKSPACE_PREFIX mimeType) then throw NOT_WORKSPACE
    else
      let exportMimeType := formatMap_get (export_format_name format) in
      match returnAs with
      | RAurl =>
          ret (ExportUrl fileName format (export_url fileId exportMimeType)
                         exportMimeType)
      | _ =>
          let responseType :=
            match returnAs with RAbase64 => RTarraybuffer | _ => RTtext end in
          data ← export fileId exportMimeType responseType;
          let content :=
            match returnAs, responseType with
            | RAbase64, RTarraybuffer => BText (base64 (body_bytes data))
            | _, _ => data
            end in
          ret (ExportContent fileName format content exportMimeType
                             returnAs)
      end).

(** *** delete_shared_drive *)

Definition DRIVE_NOT_EMPTY : Error :=
  mkError "Shared drive is not empty. Set allowItemDeletion to true to delete with content.".

Definition drive_content_query (driveId : string) : ListParams :=
  mkListParams [InParents driveId; TrashedIsFalse] 1 None.

Definition delete_shared_drive (driveId : string) (allowItemDeletion : bool)
  : M (Logged St) DeleteDriveResponse :=
  handleDriveOperation (
    (if negb allowItemDeletion then
       listResponse ←
         ask_read (RListAllDrives (drive_content_query driveId))
                  (files_list_all_drives drive (drive_content_query driveId));
       match files listResponse with
       | Some (_ :: _) => throw DRIVE_NOT_EMPTY
       | _ => ret tt
       end
     else ret tt);;
    ask (RDrivesDelete driveId) (drives_delete drive driveId);;
    ret (mkDeleteDriveResponse "Shared drive deleted successfully" driveId)).

(** *** share_file_or_folder *)

Definition bare_permission (type : PermType) (role : Role) : Permission :=
  mkPermission type role None None None.

(** The [permission] object after the chain of [if]s. *)
Definition share_permission_of (type : PermType) (role : Role)
    (email domain : option string) (allowFileDiscovery : bool) : Permission :=
  match type, given email, given domain with
  | PTuser, Some e, _ => mkPermission type role (Some e) None None
  | PTdomain, _, Some d => mkPermission type role None (Some d) None
  | PTgroup, Some e, _ => mkPermission type role (Some e) None None
  | PTanyone, _, _ =>
      mkPermission type role None None (Some allowFileDiscovery)
  | _, _, _ => bare_permission type role
  end.

Definition share_file_or_folder (fileId : string) (email : option string)
    (role : Role) (type : PermType) (domain : option string)
    (sendNotification : bool) (emailMessage : option string)
    (allowFileDiscovery : bool) : M (Logged St) ShareResponse :=
  handleDriveOperation (
    let permission :=
      share_permission_of type role email domain allowFileDiscovery in
    granted ←
      ask (RPermissionsCreate fileId permission sendNotification emailMessage)
          (permissions_create drive fileId permission sendNotification
                              emailMessage);
    links ← get_links fileId;
    ret (mkShareResponse "File shared successfully" granted
                         (webViewLink links) (webContentLink links)
                         (links_name links))).

End MoreHandlers.

(** *** The client

    The handlers above are run with a client.  The server runs them with
    what [getDriveClient()] returns, which is [null] when no OAuth token is
    configured: [handleDriveOperation] then throws inside its [try], before
    the operation is called, and the error is logged and thrown on like any
    other.  (What [getDriveClient] itself writes to the console is left
    out.) *)
Definition NOT_INITIALIZED : Error :=
  mkError "Drive client not initialized. Please check OAuth credentials.".

Definition with_client {St A} (client : option (DriveMore St))
    (tool : DriveMore St -> M (Logged St) A) : M (Logged St) A :=
  match client with
  | Some drive => tool drive
  | None => handleDriveOperation (throw NOT_INITIALIZED)
  end.

(** ** What [formatResponse] serialises

    [JSON.stringify] keeps a property whose value is [null] and drops one
    whose value is [undefined]; the tree of a response is given here as the
    JSON value that is serialised. *)
#[warnings="-register-all"]
Inductive JSON :=
| JNull
| JStr (s : string)
| JArr (l : list JSON)
| JObj (fields : list (string * JSON)).

Fixpoint json_field (key : string) (fields : list (string * JSON))
  : option JSON :=
  match fields with
  | [] => None
  | (k, v) :: rest => if String.eqb k key then Some v else json_field key rest
  end.

Definition json_get (key : string) (j : JSON) : option JSON :=
  match j with
  | JObj fields => json_field key fields
  | _ => None
  end.

Definition has_field (key : string) (j : JSON) : bool :=
  match json_get key j with
  | Some _ => true
  | None => false
  end.

Fixpoint node_json (n : TreeNode) : JSON :=
  match n with
  | mkNode i nm ty sz ch =>
      JObj ([("id", JStr i); ("name", JStr nm); ("type", JStr ty)]
            ++ match sz with Some s => [("size", JStr s)] | None => [] end
            ++ match ch with
               | Some l => [("children", JArr (List.map node_json l))]
               | None => []
               end)
  end.

Definition root_json (r : TreeRoot) : JSON :=
  JObj [("id", JStr (root_id r)); ("name", JStr (root_name r));
        ("children", match root_children r with
                     | null => JNull
                     | value l => JArr (List.map node_json l)
                     end)].

(** ** A storage backend

    Modelled from the spec: the storage service behind the Drive client, an
    external collaborator of the repository (spec sections 2 and 6: [list]
    answers with an ordered sequence of entries, [create] with a new id,
    [get] with an entry; any of them may fail).  The store holds its files
    in the order it lists them, and the ids of the folders it refuses to
    serve.  A list request answers with the files that satisfy every clause
    of [q], by name when [orderBy] is [name], cut to [pageSize]; a request
    that names a refused folder fails.  Creating appends a folder under a
    new id.  The handlers themselves are stated over any [Drive] client;
    the store is the client of the worked scenarios and of the statements
    that depend on what creating does to later listings. *)
Record Store := mkStore {
  entries : list File;
  denied : list string
}.

Definition clause_holds (f : File) (c : Clause) : bool :=
  match c with
  | InParents p => bool_decide (p ∈ file_parents f)
  | TrashedIsFalse => negb (file_trashed f)
  | MimeTypeEq m => String.eqb (file_mimeType f) m
  | MimeTypeNe m => negb (String.eqb (file_mimeType f) m)
  | NameEq n => String.eqb (file_name f) n
  end.

Definition satisfies (q : list Clause) (f : File) : bool :=
  forallb (clause_holds f) q.

Definition queried_parents (q : list Clause) : list string :=
  flat_map (fun c => match c with InParents p => [p] | _ => [] end) q.

Definition refused (s : Store) (ids : list string) : bool :=
  existsb (fun x => bool_decide (x ∈ denied s)) ids.

Fixpoint insert_by_name (f : File) (l : list File) : list File :=
  match l with
  | [] => [f]
  | g :: l' =>
      if String.ltb (file_name f) (file_name g) then f :: g :: l'
      else g :: insert_by_name f l'
  end.

Definition arrange (orderBy : option string) (l : list File) : list File :=
  match orderBy with
  | Some key =>
      if String.eqb key "name"
      then foldl (fun acc f => insert_by_name f acc) [] l
      else l
  | None => l
  end.

Definition store_list (p : ListParams) (s : Store) : Error + ListResponse :=
  if refused s (queried_parents (q p)) then
    inl (mkError "The user does not have sufficient permissions")
  else
    inr (mkListResponse
           (Some (take (pageSize p)
                       (arrange (orderBy p)
                                (List.filter (satisfies (q p)) (entries s)))))).

Definition store_get (fileId : string) (s : Store) : Error + File :=
  if refused s [fileId] then
    inl (mkError "The user does not have sufficient permissions")
  else
    match List.find (fun f => String.eqb (file_id f) fileId) (entries s) with
    | Some f => inr f
    | None => inl (mkError ("File not found: " +:+ fileId))
    end.

Definition known_ids (s : Store) : list string :=
  "root" :: denied s
  ++ flat_map (fun f => file_id f :: file_parents f) (entries s).

Fixpoint pad (n : nat) : string :=
  match n with
  | O => EmptyString
  | Datatypes.S n' => String "n"%char (pad n')
  end.

(** A new id: longer than every id the store knows. *)
Definition fresh_id (s : Store) : string :=
  pad (Datatypes.S (foldr Nat.max O (String.length <$> known_ids s))).

Definition store_create (b : CreateBody) (s : Store)
  : (Error + string) * Store :=
  if refused s (body_parents b) then
    (inl (mkError "The user does not have sufficient permissions"), s)
  else
    let i := fresh_id s in
    (inr i,
     mkStore (entries s
              ++ [mkFile i (body_name b) (body_mimeType b) None ""
                         (body_parents b) false])
             (denied s)).

Definition store_drive : Drive Store :=
  mkDrive Store store_list store_get store_create.

(** ** The storage backend behind the query text

    The client is sent the text of [q], not its clauses.  Modelled after
    the query language of the storage service, on the terms the handlers
    write: the text is a sequence of terms joined by [and], and a string
    literal runs from its opening quote to the next quote.  (A backslash
    would escape the character after it; the handlers write none, and a
    text with one in a literal is not read here.)  A text that cannot be
    read is refused, as the service refuses an invalid query; a text that
    can is answered by the store, with the terms that were read. *)

(** The text after the prefix [p] of [s], if [s] starts with [p]. *)
Fixpoint strip_prefix (p s : string) : option string :=
  match p with
  | EmptyString => Some s
  | String a p' =>
      match s with
      | String b s' => if Ascii.eqb a b then strip_prefix p' s' else None
      | EmptyString => None
      end
  end.

Definition plain_char (c : ascii) : bool :=
  negb (Ascii.eqb c "'"%char) && negb (Ascii.eqb c "\"%char).

(** A string without quote and backslash: spliced between quotes, it is
    read back as it is. *)
Fixpoint plain (s : string) : bool :=
  match s with
  | EmptyString => true
  | String c s' => plain_char c && plain s'
  end.

(** The literal that ends at the first quote of [s], and the text after
    that quote. *)
Fixpoint read_literal (s : string) : option (string * string) :=
  match s with
  | EmptyString => None
  | String c s' =>
      if Ascii.eqb c "'"%char then Some (EmptyString, s')
      else if Ascii.eqb c "\"%char then None
      else match read_literal s' with
           | Some (lit, rest) => Some (String c lit, rest)
           | None => None
           end
  end.

(** A literal, its closing quote and [after]. *)
Definition read_quoted (after : string) (mk : string -> Clause) (s : string)
  : option (Clause * string) :=
  match read_literal s with
  | Some (lit, rest) =>
      match strip_prefix after rest with
      | Some rest' => Some (mk lit, rest')
      | None => None
      end
  | None => None
  end.

(** The term [s] starts with, and the text after it. *)
Definition read_term (s : string) : option (Clause * string) :=
  match strip_prefix "'" s with
  | Some s1 => read_quoted " in parents" InParents s1
  | None =>
  match strip_prefix "trashed = false" s with
  | Some s1 => Some (TrashedIsFalse, s1)
  | None =>
  match strip_prefix "mimeType = '" s with
  | Some s1 => read_quoted "" MimeTypeEq s1
  | None =>
  match strip_prefix "mimeType != '" s with
  | Some s1 => read_quoted "" MimeTypeNe s1
  | None =>
  match strip_prefix "name = '" s with
  | Some s1 => read_quoted "" NameEq s1
  | None => None
  end end end end end.

(** Terms joined by [and], up to the end of the text; every term takes at
    least one character, so a budget of the length of the text is never
    used up. *)
Fixpoint read_terms (fuel : nat) (s : string) : option (list Clause) :=
  match fuel with
  | O => None
  | Datatypes.S fuel' =>
      match read_term s with
      | Some (c, rest) =>
          if String.eqb rest "" then Some [c]
          else match strip_prefix " and " rest with
               | Some rest' =>
                   match read_terms fuel' rest' with
                   | Some cs => Some (c :: cs)
                   | None => None
                   end
               | None => None
               end
      | None => None
      end
  end.

Definition read_query (text : string) : option (list Clause) :=
  if String.eqb text "" then Some []
  else read_terms (String.length text) text.

Definition INVALID_QUERY : Error := mkError "Invalid Value".

Definition text_list (p : ListParams) (s : Store) : Error + ListResponse :=
  match read_query (q_text (q p)) with
  | Some terms => store_list (mkListParams terms (pageSize p) (orderBy p)) s
  | None => inl INVALID_QUERY
  end.

Definition text_drive : Drive Store :=
  mkDrive Store text_list store_get store_create.

(** A clause whose text is read back as the clause: the value spliced into
    it is plain. *)
Definition plain_clause (c : Clause) : bool :=
  match c with
  | InParents p => plain p
  | TrashedIsFalse => true
  | MimeTypeEq m => plain m
  | MimeTypeNe m => plain m
  | NameEq n => plain n
  end.

(** A store whose files have plain ids (the ids are spliced into the
    queries for what lies below them). *)
Definition plain_store (s : Store) : bool :=
  forallb (fun f => plain (file_id f)) (entries s).

(** The optional MIME filter, when it is plain. *)
Definition plain_filter (mimeType : option string) : bool :=
  match mimeType with
  | Some mt => plain mt
  | None => true
  end.

(** ** The fixture of the worked scenarios

    root -> folder A; A -> file x.txt; A -> folder B (empty). *)
Definition folderA : File := mkFile "A" "A" FOLDER_MIME None "" ["root"] false.
Definition fileX : File :=
  mkFile "x" "x.txt" "text/plain" (Some "12") "" ["A"] false.
Definition folderB : File := mkFile "B" "B" FOLDER_MIME None "" ["A"] false.
Definition fixture : Store := mkStore [folderA; fileX; folderB] [].

(** The same files and a file y.txt next to A, with folder A refused. *)
Definition fileY : File :=
  mkFile "y" "y.txt" "text/plain" (Some "7") "" ["root"] false.
Definition guarded : Store := mkStore [folderA; fileX; folderB; fileY] ["A"].

(** A backend that is not a tree: folder L is listed under the root and
    under itself. *)
Definition folderL : File :=
  mkFile "L" "L" FOLDER_MIME None "" ["root"; "L"] false.
Definition looped : Store := mkStore [folderL] [].

(** A store without files, and a path of one segment that holds quotes. *)
Definition bare : Store := mkStore [] [].
Definition QUOTED : string := "x' and name = 'x".

Definition items_of {St} (r : Outcome ListRecursiveResponse * Machine St)
  : list Item :=
  match fst r with
  | Ok resp => resp_items resp
  | _ => []
  end.

Definition listing (its : list Item) : list (string * Z) :=
  (fun it => (item_path it, item_depth it)) <$> its.

(** ** Vocabulary of the statements *)

(** The folder id a resolution ended with, if it ended with one. *)
Definition resolved_id (o : Outcome PathResponse) : option string :=
  match o with
  | Ok r => Some (resp_folderId r)
  | _ => None
  end.

(** The requests a run sent: what it appended to the log of [m]. *)
Definition issued {St A} (m : Machine St) (r : Outcome A * Machine St)
  : list Call :=
  drop (length (calls m)) (calls (snd r)).

(** The folders whose children were requested, one entry per request. *)
Definition expanded (cs : list Call) : list string :=
  flat_map (fun c => match c with
                     | CList p => queried_parents (q p)
                     | _ => []
                     end) cs.

Definition is_list_call (c : Call) : bool :=
  match c with
  | CList _ => true
  | _ => false
  end.

(** Every segment of [folders] names an existing folder when walked from
    [cur]: the listing for it answers with at least one file, and the walk
    goes on from the first. *)
Fixpoint segments_exist {St} (drive : Drive St) (s : St) (cur : string)
    (folders : list string) : Prop :=
  match folders with
  | [] => True
  | folderName :: rest =>
      exists f fs,
        files_list drive (folder_query folderName cur) s
          = inr (mkListResponse (Some (f :: fs)))
        /\ segments_exist drive s (file_id f) rest
  end.

(** The error with which the backend in state [s] answers a read request,
    if it fails it. *)
Definition call_failure {St} (drive : Drive St) (s : St) (c : Call)
  : option Error :=
  match c with
  | CList p => match files_list drive p s with inl e => Some e | inr _ => None end
  | CGet i => match files_get drive i s with inl e => Some e | inr _ => None end
  | CCreate b =>
      match fst (files_create drive b s) with inl e => Some e | inr _ => None end
  end.

(** The client that answers a failing list request with no files. *)
Definition lenient {St} (drive : Drive St) : Drive St :=
  mkDrive St
    (fun p s => match files_list drive p s with
                | inl _ => inr (mkListResponse (Some []))
                | inr r => inr r
                end)
    (files_get drive) (files_create drive).

(** [s'] holds the files of [s], in the same order, and possibly more
    after them. *)
Definition extends (s s' : Store) : Prop :=
  denied s' = denied s /\ exists extra, entries s' = entries s ++ extra.

(** [m] with further requests in its log. *)
Definition with_calls {St} (m : Machine St) (extra : list Call) : Machine St :=
  mkMachine (backend m) (calls m ++ extra) (console m) (allItems m)
            (visited m).

(** Two computations that, started in related machines, end the same way
    in related machines. *)
Definition related {St A} (R : Machine St -> Machine St -> Prop)
    (c1 c2 : M St A) : Prop :=
  forall m1 m2,
    R m1 m2 -> fst (c1 m1) = fst (c2 m2) /\ R (snd (c1 m1)) (snd (c2 m2)).

(** A property of the machine that a computation keeps, however it ends. *)
Definition preserves {St A} (I : Machine St -> Prop) (c : M St A) : Prop :=
  forall m, I m -> I (snd (c m)).

(** A computation that ends with a value, from every machine. *)
Definition returns {St A} (c : M St A) : Prop :=
  forall m, exists a, fst (c m) = Ok a.

(** A computation that is not cut off, from any machine. *)
Definition finishes {St A} (c : M St A) : Prop :=
  forall m, fst (c m) <> OutOfFuel.

(** Machines that agree on everything but what was written to the console. *)
Definition same_but_console {St} (m1 m2 : Machine St) : Prop :=
  backend m1 = backend m2 /\ calls m1 = calls m2
  /\ allItems m1 = allItems m2 /\ visited m1 = visited m2.

(** The recursion budget that a traversal bounded by [maxDepth] needs. *)
Definition enough (maxDepth : Z) : nat := Datatypes.S (Z.to_nat maxDepth).

(** [maxDepth] arrives as a number ([z.number()]) and is only used in the
    test [depth >= maxDepth] against the integral [depth]: [reached] is
    that test for a rational number, and [depth_bound] the integer that
    stands for the number in the handlers, its ceiling. *)
Definition reached (depth : Z) (maxDepth : Q) : bool :=
  Qle_bool maxDepth (inject_Z depth).

Definition depth_bound (maxDepth : Q) : Z := Qceiling maxDepth.

(** Since the log was [pre], no folder had its children requested twice,
    and every folder whose children were requested is in the visited set. *)
Definition expanded_once {St} (pre : list Call) (m : Machine St) : Prop :=
  exists new,
    calls m = pre ++ new
    /\ NoDup (expanded new)
    /\ forall p, p ∈ expanded new -> p ∈ visited m.

(** Every collected item has a depth from 0 up to, not including,
    [maxDepth]. *)
Definition depths_below {St} (maxDepth : Z) (m : Machine St) : Prop :=
  Forall (fun it => 0 <= item_depth it < maxDepth) (allItems m).

(** Since the log was [pre] the backend, still in state [s], has answered
    every request. *)
Definition all_answered {St} (drive : Drive St) (s : St) (pre : list Call)
    (m : Machine St) : Prop :=
  backend m = s
  /\ exists answered,
      calls m = pre ++ answered
      /\ Forall (fun c => call_failure drive s c = None) answered.

(** Since the log was [pre] the backend, still in state [s], has answered
    every request but the last one, which it failed with [e]. *)
Definition stopped_at {St} (drive : Drive St) (s : St) (pre : list Call)
    (e : Error) (m : Machine St) : Prop :=
  backend m = s
  /\ exists answered c,
      calls m = pre ++ answered ++ [c]
      /\ Forall (fun c => call_failure drive s c = None) answered
      /\ call_failure drive s c = Some e.

(** A computation that stops at the first request the backend fails, and
    throws that very error. *)
Definition strict {St A} (drive : Drive St) (s : St) (pre : list Call)
    (c : M St A) : Prop :=
  forall m,
    all_answered drive s pre m ->
    match fst (c m) with
    | Ok _ => all_answered drive s pre (snd (c m))
    | Throw e => stopped_at drive s pre e (snd (c m))
    | OutOfFuel => True
    end.

(** The options under which every list request of the recursive lister
    carries a clause that no folder satisfies: folders are kept out of the
    results, or a MIME type other than the folder type is asked for. *)
Definition folders_filtered (includeFiles includeFolders : bool)
    (mimeType : option string) : bool :=
  includeFiles
  && (negb includeFolders
      || match mimeType with
         | Some mt => truthy mt && negb (String.eqb mt FOLDER_MIME)
         | None => false
         end).

(** An item for a file that is a direct child of [folderId] and not a
    folder. *)
Definition direct_leaf (folderId : string) (it : Item) : Prop :=
  item_depth it = 0
  /\ file_mimeType (item_file it) <> FOLDER_MIME
  /\ folderId ∈ file_parents (item_file it).

(** *** Vocabulary of the further properties *)

(** Walking [folders] from [cur], every listing answers with a file, and
    taking the first each time ends at [x]. *)
Fixpoint resolves_to {St} (drive : Drive St) (s : St) (cur : string)
    (folders : list string) (x : string) : Prop :=
  match folders with
  | [] => x = cur
  | folderName :: rest =>
      exists f fs,
        files_list drive (folder_query folderName cur) s
          = inr (mkListResponse (Some (f :: fs)))
        /\ resolves_to drive s (file_id f) rest x
  end.

(** The listing for [folderName] under [cur] answers, with no file. *)
Definition answers_nothing {St} (drive : Drive St) (s : St)
    (folderName cur : string) : Prop :=
  exists response,
    files_list drive (folder_query folderName cur) s = inr response
    /\ (files response = None \/ files response = Some []).

(** In store [s] the names [folders] lead from [cur] to [x]: each names a
    folder, not trashed, that has the one before as a parent. *)
Fixpoint leads (s : Store) (cur : string) (folders : list string)
    (x : string) : Prop :=
  match folders with
  | [] => x = cur
  | folderName :: rest =>
      exists f,
        f ∈ entries s
        /\ file_name f = folderName
        /\ file_mimeType f = FOLDER_MIME
        /\ file_trashed f = false
        /\ cur ∈ file_parents f
        /\ leads s (file_id f) rest x
  end.

(** Pre-order.  What a call [traverseFolder(_, depth, path)] lists is, for
    each file of the folder in turn, the entry of the file, at [depth] and
    with the path formed from [path], directly followed by what is listed
    below it (nothing, for a file that is no folder), and then the entries
    for the files after it. *)
Inductive laid_out : Z -> string -> list Item -> Prop :=
| laid_out_nil depth path : laid_out depth path []
| laid_out_cons depth path file below rest :
    laid_out (depth + 1) (child_path path file) below ->
    (file_mimeType file <> FOLDER_MIME -> below = []) ->
    laid_out depth path rest ->
    laid_out depth path
             (mkItem file (child_path path file) depth :: below ++ rest).

(** A tree node as the builder makes them: a file or a folder, and
    [children], where there, on a folder only, not empty, of such nodes. *)
Fixpoint node_wf (n : TreeNode) : bool :=
  match n with
  | mkNode _ _ ty _ ch =>
      match ch with
      | None => String.eqb ty "folder" || String.eqb ty "file"
      | Some l =>
          String.eqb ty "folder"
          && match l with [] => false | _ => true end
          && forallb node_wf l
      end
  end.

(** The number of levels of the tree under, and with, a node. *)
Fixpoint levels (n : TreeNode) : nat :=
  match n with
  | mkNode _ _ _ _ ch =>
      Datatypes.S (match ch with
                   | None => O
                   | Some l => list_max (List.map levels l)
                   end)
  end.

(** The nodes under the root of a response; none when there is no response
    or [children] is [null]. *)
Definition tree_of (o : Outcome TreeResponse) : list TreeNode :=
  match o with
  | Ok resp => match root_children (resp_root resp) with
               | value l => l
               | null => []
               end
  | _ => []
  end.

(** A node made at [depth] by a builder bounded by [maxDepth]: well formed,
    and with no more levels than are left. *)
Definition fits (maxDepth depth : Z) (n : TreeNode) : Prop :=
  node_wf n = true /\ Z.of_nat (levels n) <= maxDepth - depth.

(** The requests a run of a further tool sent: what it appended to the log
    of [m]. *)
Definition sent {St A} (m : Machine (Logged St))
    (r : Outcome A * Machine (Logged St)) : list Request :=
  drop (length (requests (backend m))) (requests (backend (snd r))).

(** [m] after the requests [rs], with the backend now in state [s]. *)
Definition after_requests {St} (rs : list Request) (s : St)
    (m : Machine (Logged St)) : Machine (Logged St) :=
  set_backend (mkLogged s (requests (backend m) ++ rs)) m.

(** The backend in state [s] answers the metadata read for [fileId] and
    then the download that [batch_download] asks for. *)
Definition downloadable {St} (drive : DriveMore St) (format : BatchFormat)
    (exportFormat : option string) (s : St) (fileId : string) : bool :=
  match files_get (more_core drive) fileId s with
  | inl _ => false
  | inr meta =>
      if String.prefix WORKSPACE_PREFIX (file_mimeType meta) then
        match files_export drive fileId
                (MimeStr (batch_export_mime (file_mimeType meta) exportFormat))
                (batch_response_type format) s with
        | inl _ => false
        | inr _ => true
        end
      else
        match files_get_media drive fileId (batch_response_type format) s with
        | inl _ => false
        | inr _ => true
        end
  end.

(** How many of the properties a permission may carry besides [type] and
    [role] are there. *)
Definition count_some {A} (o : option A) : nat :=
  match o with
  | Some _ => 1%nat
  | None => 0%nat
  end.

Definition optional_fields (p : Permission) : nat :=
  (count_some (perm_emailAddress p) + count_some (perm_domain p)
   + count_some (perm_allowFileDiscovery p))%nat.

(** A client for the examples, on the storage backend.  The store keeps
    neither contents nor links nor permissions nor shared drives: a download
    answers with the name of the file, a permission is granted as asked
    under the id [1], and deleting a drive changes nothing. *)
Definition store_body (rt : ResponseType) (bytes : string) : Body :=
  match rt with
  | RTtext => BText bytes
  | RTarraybuffer => BArrayBuffer bytes
  end.

Definition store_more : DriveMore Store :=
  mkDriveMore Store store_drive
    (fun fileId s =>
       match store_get fileId s with
       | inl e => inl e
       | inr f => inr (mkFileLinks (file_name f) None None)
       end)
    (fun fileId _ rt s =>
       match store_get fileId s with
       | inl e => inl e
       | inr f => inr (store_body rt (file_name f))
       end)
    (fun fileId rt s =>
       match store_get fileId s with
       | inl e => inl e
       | inr f => inr (store_body rt (file_name f))
       end)
    store_list
    (fun driveId s => (inr tt, s))
    (fun fileId p _ _ s =>
       (inr (mkPermissionResource "1" (perm_type p) (perm_role p)
                                  (perm_emailAddress p) (perm_domain p)), s)).

Definition docFile : File :=
  mkFile "d" "notes" "application/vnd.google-apps.document" None "" ["root"]
         false.
Definition library : Store := mkStore [folderA; fileX; docFile] [].

Definition boot_more {St} (s : St) : Machine (Logged St) :=
  boot (mkLogged s []).

(** The number of folder entries of a listing. *)
Definition folder_entries (its : list Item) : nat :=
  length (List.filter
            (fun it => String.eqb (file_mimeType (item_file it)) FOLDER_MIME)
            its).

(** ** Reasoning about computations *)

Lemma bind_run {St A B} (c : M St A) (k : A -> M St B) (m : Machine St) :
  (c ≫= k) m
  = match c m with
    | (Ok a, m') => k a m'
    | (Throw e, m') => (Throw e, m')
    | (OutOfFuel, m') => (OutOfFuel, m')
    end.
Proof. reflexivity. Qed.

Lemma for_of_acc_cons {St A B} x (l : list A) (acc : B)
    (body : B -> A -> M St B) :
  for_of_acc (x :: l) acc body
  = (body acc x ≫= fun acc' => for_of_acc l acc' body).
Proof. reflexivity. Qed.

(** *** Path splitting *)

Example path_folders_slashes : path_folders "/a//b/" = ["a"; "b"].
Proof. reflexivity. Qed.

Example path_folders_plain : path_folders "a/b" = ["a"; "b"].
Proof. reflexivity. Qed.

Example path_folders_empty : path_folders "" = [].
Proof. reflexivity. Qed.

Example traverse_query_text :
  q_text (traverse_clauses true false None "root")
  = "'root' in parents and trashed = false and mimeType != 'application/vnd.google-apps.folder'".
Proof. reflexivity. Qed.

Lemma path_folders_truthy path : Forall (fun f => f <> "") (path_folders path).
Proof.
  unfold path_folders. apply Forall_forall. intros f Hf.
  apply list_elem_of_In, filter_In in Hf as [_ Hf]. unfold truthy in Hf.
  intros ->. discriminate.
Qed.

(** ** The path resolver *)

Section Resolver.
Context {St : Type} (drive : Drive St).

(** One round of the loop, request by request. *)
Lemma resolve_step_run path b cur folderName (m : Machine St) :
  resolve_step drive path b cur folderName m
  = match files_list drive (folder_query folderName cur) (backend m) with
    | inl e => (Throw e, log_call (CList (folder_query folderName cur)) m)
    | inr response =>
        match files response with
        | Some (f :: _) =>
            (Ok (file_id f), log_call (CList (folder_query folderName cur)) m)
        | _ =>
            if b then
              drive_files_create drive
                (mkCreateBody folderName FOLDER_MIME [cur])
                (log_call (CList (folder_query folderName cur)) m)
            else (Throw (not_found folderName path),
                  log_call (CList (folder_query folderName cur)) m)
        end
    end.
Proof.
  unfold resolve_step. rewrite bind_run. unfold drive_files_list.
  destruct (files_list drive _ (backend m)) as [e|response]; simpl; [done|].
  destruct (files response) as [[|f fs]|]; destruct b; reflexivity.
Qed.

(** The requested path only shows in the message of a missing segment. *)
Lemma resolve_loop_path_irrelevant p1 p2 b folders :
  forall cur (m : Machine St),
    let r1 := for_of_acc folders cur (resolve_step drive p1 b) m in
    let r2 := for_of_acc folders cur (resolve_step drive p2 b) m in
    snd r1 = snd r2 /\
    (fst r1 = fst r2 \/
     exists seg, fst r1 = Throw (not_found seg p1)
                 /\ fst r2 = Throw (not_found seg p2)).
Proof.
  induction folders as [|folderName rest IH]; intros cur m; simpl.
  - auto.
  - rewrite !bind_run, !resolve_step_run. simpl.
    destruct (files_list drive _ (backend m)) as [e|response]; simpl; [auto|].
    destruct (files response) as [[|f fs]|]; simpl.
    2: apply IH.
    all: destruct b; simpl; [|eauto].
    all: destruct (drive_files_create drive _ _) as [[x| |] m']; simpl; auto.
Qed.

Lemma handle_ok {A} (op : M St A) m a m' :
  op m = (Ok a, m') -> handleDriveOperation op m = (Ok a, m').
Proof. unfold handleDriveOperation, try_catch. intros ->. reflexivity. Qed.

Lemma handle_throw {A} (op : M St A) m e m' :
  op m = (Throw e, m') ->
  handleDriveOperation op m
  = (Throw e, mkMachine (backend m') (calls m')
                        (console m' ++ [("Drive operation failed:", e)])
                        (allItems m') (visited m')).
Proof. unfold handleDriveOperation, try_catch. intros ->. reflexivity. Qed.

Lemma handle_out {A} (op : M St A) m m' :
  op m = (OutOfFuel, m') -> handleDriveOperation op m = (OutOfFuel, m').
Proof. unfold handleDriveOperation, try_catch. intros ->. reflexivity. Qed.

(** The handler in terms of its loop. *)
Lemma get_folder_id_for_path_run path b (m : Machine St) :
  get_folder_id_for_path drive path b m
  = match for_of_acc (path_folders path) "root" (resolve_step drive path b) m
    with
    | (Ok x, m') => (Ok (mkPathResponse path x), m')
    | (Throw e, m') =>
        (Throw e, mkMachine (backend m') (calls m')
                            (console m' ++ [("Drive operation failed:", e)])
                            (allItems m') (visited m'))
    | (OutOfFuel, m') => (OutOfFuel, m')
    end.
Proof.
  unfold get_folder_id_for_path.
  destruct (for_of_acc _ _ _ m) as [[x|e|] m'] eqn:E.
  - apply handle_ok. rewrite bind_run, E. reflexivity.
  - apply handle_throw. rewrite bind_run, E. reflexivity.
  - apply handle_out. rewrite bind_run, E. reflexivity.
Qed.

Lemma same_folders_same_resolution p1 p2 b (m : Machine St) :
  path_folders p1 = path_folders p2 ->
  let r1 := get_folder_id_for_path drive p1 b m in
  let r2 := get_folder_id_for_path drive p2 b m in
  resolved_id (fst r1) = resolved_id (fst r2)
  /\ backend (snd r1) = backend (snd r2)
  /\ calls (snd r1) = calls (snd r2).
Proof.
  intros Hf. simpl. rewrite !get_folder_id_for_path_run, Hf.
  destruct (resolve_loop_path_irrelevant p1 p2 b (path_folders p2) "root" m)
    as [Hs Ho]. simpl in Hs, Ho.
  destruct (for_of_acc _ _ (resolve_step drive p1 b) m) as [o1 m1].
  destruct (for_of_acc _ _ (resolve_step drive p2 b) m) as [o2 m2].
  simpl in *. subst m2.
  destruct Ho as [->|(seg & -> & ->)]; [|done].
  destruct o2; done.
Qed.

(** C9: a path without non-empty segments resolves to ['root'], whatever
    [createIfNotExists] is and without any request to the backend; and
    since empty segments are discarded, ["/a//b/"] and ["a/b"] are walked
    as the same segments and resolve to the same folder id, with the same
    requests and the same effect on the backend. *)
Theorem empty_path_is_root :
  (forall path b (m : Machine St),
      path_folders path = [] ->
      get_folder_id_for_path drive path b m
      = (Ok (mkPathResponse path "root"), m))
  /\ path_folders "/a//b/" = path_folders "a/b"
  /\ (forall b (m : Machine St),
        let r1 := get_folder_id_for_path drive "/a//b/" b m in
        let r2 := get_folder_id_for_path drive "a/b" b m in
        resolved_id (fst r1) = resolved_id (fst r2)
        /\ backend (snd r1) = backend (snd r2)
        /\ calls (snd r1) = calls (snd r2)).
Proof.
  split; [|split].
  - intros path b m Hf. rewrite get_folder_id_for_path_run, Hf.
    reflexivity.
  - reflexivity.
  - intros b m. apply same_folders_same_resolution. reflexivity.
Qed.

End Resolver.

Section ResolverFrame.
Context {St : Type} (drive : Drive St).

Lemma with_calls_nil (m : Machine St) : with_calls m [] = m.
Proof. destruct m. unfold with_calls. simpl. by rewrite app_nil_r. Qed.

Lemma issued_with_calls {A} (o : Outcome A) (m : Machine St) extra :
  issued m (o, with_calls m extra) = extra.
Proof. unfold issued. simpl. by rewrite drop_app_length. Qed.

Lemma resolve_loop_existing path folders :
  forall cur (m : Machine St),
    segments_exist drive (backend m) cur folders ->
    forall b,
      exists x ps,
        for_of_acc folders cur (resolve_step drive path b) m
        = (Ok x, with_calls m (CList <$> ps)).
Proof.
  induction folders as [|folderName rest IH]; intros cur m Hex b.
  - exists cur, []. simpl. by rewrite with_calls_nil.
  - destruct Hex as (f & fs & Hlist & Hrest).
    rewrite for_of_acc_cons, bind_run, resolve_step_run, Hlist. simpl.
    destruct (IH (file_id f)
                 (log_call (CList (folder_query folderName cur)) m)
                 Hrest b) as (x & ps & Hrun).
    exists x, (folder_query folderName cur :: ps). rewrite Hrun.
    f_equal. unfold with_calls, log_call. simpl. by rewrite <- app_assoc.
Qed.

Lemma resolve_loop_flag_irrelevant path folders :
  forall cur (m : Machine St),
    segments_exist drive (backend m) cur folders ->
    for_of_acc folders cur (resolve_step drive path true) m
    = for_of_acc folders cur (resolve_step drive path false) m.
Proof.
  induction folders as [|folderName rest IH]; intros cur m Hex; [done|].
  destruct Hex as (f & fs & Hlist & Hrest).
  rewrite !for_of_acc_cons, !bind_run, !resolve_step_run, Hlist. simpl.
  by apply IH.
Qed.

(** C10: when every segment of the path already names an existing folder
    under the parents walked, the handler answers with a folder id, sends
    list requests only (no create request), and leaves the backend as it
    was; this holds for both values of [createIfNotExists], which then
    makes no difference at all. *)
Theorem existing_path_only_lists path (m : Machine St) :
  segments_exist drive (backend m) "root" (path_folders path) ->
  forall b,
    let r := get_folder_id_for_path drive path b m in
    (exists x, fst r = Ok (mkPathResponse path x))
    /\ backend (snd r) = backend m
    /\ forallb is_list_call (issued m r) = true
    /\ r = get_folder_id_for_path drive path false m.
Proof.
  intros Hex b. simpl.
  assert (Hsame : get_folder_id_for_path drive path b m
                  = get_folder_id_for_path drive path false m).
  { destruct b; [|done]. rewrite !get_folder_id_for_path_run.
    by rewrite resolve_loop_flag_irrelevant. }
  rewrite Hsame. rewrite get_folder_id_for_path_run.
  destruct (resolve_loop_existing path _ _ _ Hex false) as (x & ps & ->).
  repeat split.
  - by exists x.
  - rewrite issued_with_calls. induction ps; simpl; auto.
Qed.

End ResolverFrame.

(** ** The path resolver on the storage backend *)

Section ResolverOnStore.

Lemma pad_length n : String.length (pad n) = n.
Proof. induction n as [|n IH]; cbn [pad String.length]; congruence. Qed.

(** The id given to a created folder is not in use. *)
Lemma fresh_id_fresh s : fresh_id s ∉ known_ids s.
Proof.
  assert (Hmax : forall (l : list string) x,
             x ∈ l ->
             (String.length x <= foldr Nat.max O (String.length <$> l))%nat).
  { induction l as [|y l IH]; intros x Hx; [by apply elem_of_nil in Hx|].
    rewrite fmap_cons. cbn [foldr].
    apply elem_of_cons in Hx as [->|Hx]; [lia|].
    specialize (IH x Hx). lia. }
  intros Hin. apply Hmax in Hin. unfold fresh_id in Hin.
  rewrite pad_length in Hin. lia.
Qed.

Lemma extends_refl s : extends s s.
Proof. split; [done|]. exists []. by rewrite app_nil_r. Qed.

Lemma extends_trans s1 s2 s3 : extends s1 s2 -> extends s2 s3 -> extends s1 s3.
Proof.
  intros [Hd1 [e1 He1]] [Hd2 [e2 He2]]. split; [congruence|].
  exists (e1 ++ e2). by rewrite He2, He1, app_assoc.
Qed.

Lemma refused_extends s s' ids : extends s s' -> refused s' ids = refused s ids.
Proof. intros [Hd _]. unfold refused. by rewrite Hd. Qed.

Lemma store_folder_list folderName cur s :
  files_list store_drive (folder_query folderName cur) s
  = if refused s [cur] then
      inl (mkError "The user does not have sufficient permissions")
    else
      inr (mkListResponse
             (Some (take 1 (List.filter
                              (satisfies (q (folder_query folderName cur)))
                              (entries s))))).
Proof. reflexivity. Qed.

(** A folder found for a segment is still the first one found after the
    store has grown. *)
Lemma found_stable folderName cur s s' f fs :
  extends s s' ->
  files_list store_drive (folder_query folderName cur) s
  = inr (mkListResponse (Some (f :: fs))) ->
  files_list store_drive (folder_query folderName cur) s'
  = inr (mkListResponse (Some [f])).
Proof.
  intros Hext. rewrite !store_folder_list, (refused_extends _ _ _ Hext).
  destruct (refused s [cur]); [done|]. intros [= Hf].
  destruct Hext as [_ [extra ->]]. rewrite List.filter_app.
  destruct (List.filter _ (entries s)) as [|g gs]; [done|].
  simpl in Hf |- *. by injection Hf as -> _.
Qed.

(** A folder created for a missing segment is the first one found for it
    from then on. *)
Lemma created_found folderName cur s i s1 s' :
  List.filter (satisfies (q (folder_query folderName cur))) (entries s) = [] ->
  store_create (mkCreateBody folderName FOLDER_MIME [cur]) s = (inr i, s1) ->
  extends s1 s' ->
  extends s s1
  /\ exists f,
      file_id f = i
      /\ files_list store_drive (folder_query folderName cur) s'
         = inr (mkListResponse (Some [f])).
Proof.
  unfold store_create. simpl body_parents.
  intros Hnone Hcreate Hext.
  destruct (refused s [cur]) eqn:Href; [done|].
  injection Hcreate as <- <-. simpl body_name in *. simpl body_mimeType in *.
  set (new := mkFile (fresh_id s) folderName FOLDER_MIME None "" [cur] false)
    in *.
  split.
  { split; [done|]. by exists [new]. }
  exists new. split; [done|].
  rewrite store_folder_list, (refused_extends _ _ _ Hext).
  unfold refused in Href |- *. simpl denied. rewrite Href.
  destruct Hext as [_ [extra ->]]. simpl entries.
  rewrite !List.filter_app, Hnone.
  change (List.filter ?P [new]) with (if P new then [new] else []).
  assert (Hsat : satisfies
                   [NameEq folderName; MimeTypeEq FOLDER_MIME; InParents cur;
                    TrashedIsFalse] new = true).
  { unfold satisfies, new. simpl. rewrite !String.eqb_refl. simpl.
    rewrite bool_decide_eq_true_2; [done|]. apply list_elem_of_here. }
  change (q (folder_query folderName cur))
    with [NameEq folderName; MimeTypeEq FOLDER_MIME; InParents cur;
          TrashedIsFalse].
  by rewrite Hsat.
Qed.

Lemma resolve_loop_replay path folders :
  forall cur (m m1 : Machine Store) x,
    for_of_acc folders cur (resolve_step store_drive path true) m
    = (Ok x, m1) ->
    extends (backend m) (backend m1)
    /\ forall m2 : Machine Store,
        extends (backend m1) (backend m2) ->
        exists ps,
          for_of_acc folders cur (resolve_step store_drive path false) m2
          = (Ok x, with_calls m2 (CList <$> ps)).
Proof.
  induction folders as [|folderName rest IH]; intros cur m m1 x Hrun.
  - injection Hrun as <- <-. split; [apply extends_refl|].
    intros m2 _. exists []. simpl. by rewrite with_calls_nil.
  - rewrite for_of_acc_cons, bind_run, resolve_step_run in Hrun.
    set (qr := folder_query folderName cur) in *.
    assert (Hstep : forall (m2 : Machine Store) f y,
               files_list store_drive qr (backend m2)
               = inr (mkListResponse (Some [f])) ->
               (exists ps,
                   for_of_acc rest (file_id f)
                     (resolve_step store_drive path false)
                     (log_call (CList qr) m2)
                   = (Ok y, with_calls (log_call (CList qr) m2)
                                       (CList <$> ps))) ->
               exists ps,
                 for_of_acc (folderName :: rest) cur
                   (resolve_step store_drive path false) m2
                 = (Ok y, with_calls m2 (CList <$> ps))).
    { intros m2 f y Hl [ps Hps].
      exists (qr :: ps).
      rewrite for_of_acc_cons, bind_run, resolve_step_run. fold qr.
      rewrite Hl. simpl. rewrite Hps. f_equal.
      unfold with_calls, log_call. simpl. by rewrite <- app_assoc. }
    destruct (files_list store_drive qr (backend m)) as [e|response] eqn:Hl;
      [done|].
    destruct (files response) as [[|f fs]|] eqn:Hfiles.
    + (* no such folder yet: it is created *)
      unfold drive_files_create in Hrun. simpl files_create in Hrun.
      simpl backend in Hrun.
      destruct (store_create _ (backend m)) as [[e|i] s1] eqn:Hc;
        simpl in Hrun; [done|].
      apply IH in Hrun as [Hext Hreplay]. simpl backend in Hext.
      unfold qr in Hl. rewrite store_folder_list in Hl.
      destruct (refused (backend m) [cur]); [done|].
      injection Hl as <-. simpl in Hfiles.
      assert (Hnone : List.filter (satisfies (q qr)) (entries (backend m)) = []).
      { destruct (List.filter _ _); [done|]. simpl in Hfiles. done. }
      destruct (created_found _ _ _ _ _ _ Hnone Hc (extends_refl s1))
        as [Hgrow _].
      split; [exact (extends_trans _ _ _ Hgrow Hext)|].
      intros m2 Hext2.
      destruct (created_found _ _ _ _ _ (backend m2) Hnone Hc
                  (extends_trans _ _ _ Hext Hext2))
        as [_ (f & <- & Hl2)].
      eapply (Hstep m2 f x Hl2). by apply Hreplay.
    + (* the folder is there *)
      apply IH in Hrun as [Hext Hreplay]. simpl backend in Hext.
      split; [done|]. intros m2 Hext2.
      assert (Hl2 : files_list store_drive qr (backend m2)
                    = inr (mkListResponse (Some [f]))).
      { eapply found_stable; [exact (extends_trans _ _ _ Hext Hext2)|].
        etrans; [exact Hl|]. destruct response. simpl in Hfiles.
        by rewrite Hfiles. }
      eapply (Hstep m2 f x Hl2). by apply Hreplay.
    + (* the store always answers with a list *)
      unfold qr in Hl. rewrite store_folder_list in Hl.
      destruct (refused _ _); [done|]. injection Hl as <-. done.
Qed.

(** On a store that matches names, types and parents as the clauses say:
    what was resolved with [createIfNotExists] is resolved again without
    it, to the same folder. *)
Lemma store_resolve_replay path (m m1 : Machine Store) r :
  get_folder_id_for_path store_drive path true m = (Ok r, m1) ->
  let again := get_folder_id_for_path store_drive path false m1 in
  fst again = Ok r
  /\ resolved_id (fst again) = Some (resp_folderId r)
  /\ backend (snd again) = backend m1.
Proof.
  intros Hrun. simpl.
  rewrite get_folder_id_for_path_run in Hrun.
  destruct (for_of_acc _ _ _ m) as [[x|e|] m'] eqn:Hloop; [|done|done].
  injection Hrun as <- <-.
  apply resolve_loop_replay in Hloop as [_ Hreplay].
  destruct (Hreplay m' (extends_refl _)) as [ps Hps].
  rewrite get_folder_id_for_path_run, Hps. done.
Qed.

End ResolverOnStore.

(** ** Rules for the computation combinators *)

Section Rules.
Context {St : Type}.
Implicit Types (m : Machine St) (I : Machine St -> Prop)
               (R : Machine St -> Machine St -> Prop).

Lemma preserves_ret {A} I (a : A) : preserves I (mret a : M St A).
Proof. intros m Hm. exact Hm. Qed.

Lemma preserves_bind {A B} I (c : M St A) (k : A -> M St B) :
  preserves I c -> (forall a, preserves I (k a)) -> preserves I (c ≫= k).
Proof.
  intros Hc Hk m Hm. rewrite bind_run. specialize (Hc m Hm).
  destruct (c m) as [[a|e|] m']; simpl in *; [by apply Hk|done|done].
Qed.

Lemma preserves_try_catch {A} I (c : M St A) (h : Error -> M St A) :
  preserves I c -> (forall e, preserves I (h e)) -> preserves I (try_catch c h).
Proof.
  intros Hc Hh m Hm. unfold try_catch. specialize (Hc m Hm).
  destruct (c m) as [[a|e|] m']; simpl in *; [done|by apply Hh|done].
Qed.

Lemma preserves_for_of {A} I (l : list A) (body : A -> M St unit) :
  (forall x, preserves I (body x)) -> preserves I (for_of l body).
Proof.
  intros Hb. induction l as [|x l IH]; simpl.
  - apply preserves_ret.
  - apply preserves_bind; [apply Hb|]. intros _. exact IH.
Qed.

Lemma related_ret {A} R (a : A) : related R (mret a : M St A) (mret a).
Proof. intros m1 m2 HR. split; [done|exact HR]. Qed.

Lemma related_bind {A B} R (c1 c2 : M St A) (k1 k2 : A -> M St B) :
  related R c1 c2 -> (forall a, related R (k1 a) (k2 a)) ->
  related R (c1 ≫= k1) (c2 ≫= k2).
Proof.
  intros Hc Hk m1 m2 HR. rewrite !bind_run.
  destruct (Hc m1 m2 HR) as [Ho Hm].
  destruct (c1 m1) as [o1 m1'], (c2 m2) as [o2 m2']. simpl in *. subst o2.
  destruct o1 as [a|e|]; [by apply Hk|done|done].
Qed.

Lemma related_try_catch {A} R (c1 c2 : M St A) (h1 h2 : Error -> M St A) :
  related R c1 c2 -> (forall e, related R (h1 e) (h2 e)) ->
  related R (try_catch c1 h1) (try_catch c2 h2).
Proof.
  intros Hc Hh m1 m2 HR. unfold try_catch.
  destruct (Hc m1 m2 HR) as [Ho Hm].
  destruct (c1 m1) as [o1 m1'], (c2 m2) as [o2 m2']. simpl in *. subst o2.
  destruct o1 as [a|e|]; [done|by apply Hh|done].
Qed.

Lemma related_for_of {A} R (l : list A) (b1 b2 : A -> M St unit) :
  (forall x, related R (b1 x) (b2 x)) -> related R (for_of l b1) (for_of l b2).
Proof.
  intros Hb. induction l as [|x l IH]; simpl.
  - apply related_ret.
  - apply related_bind; [apply Hb|]. intros _. exact IH.
Qed.

Lemma related_for_of_acc {A B} R (l : list A) (b1 b2 : B -> A -> M St B) :
  (forall acc x, related R (b1 acc x) (b2 acc x)) ->
  forall acc, related R (for_of_acc l acc b1) (for_of_acc l acc b2).
Proof.
  intros Hb. induction l as [|x l IH]; intros acc; simpl.
  - apply related_ret.
  - apply related_bind; [apply Hb|]. intros acc'. apply IH.
Qed.

Lemma related_refl {A} (c : M St A) : related eq c c.
Proof. intros m1 m2 ->. done. Qed.

Lemma related_eq_run {A} (c1 c2 : M St A) m :
  related eq c1 c2 -> c1 m = c2 m.
Proof.
  intros H. destruct (H m m eq_refl) as [Ho Hm].
  destruct (c1 m), (c2 m). simpl in *. congruence.
Qed.

Lemma returns_bind {A B} (c : M St A) (k : A -> M St B) :
  returns c -> (forall a, returns (k a)) -> returns (c ≫= k).
Proof.
  intros Hc Hk m. rewrite bind_run. destruct (Hc m) as [a Ha].
  destruct (c m) as [o m']. simpl in Ha. subst o. apply Hk.
Qed.

Lemma returns_ret {A} (a : A) : returns (mret a : M St A).
Proof. intros m. by exists a. Qed.

Lemma returns_for_of {A} (l : list A) (body : A -> M St unit) :
  (forall x, returns (body x)) -> returns (for_of l body).
Proof.
  intros Hb. induction l as [|x l IH]; simpl.
  - apply returns_ret.
  - apply returns_bind; [apply Hb|]. intros _. exact IH.
Qed.

Lemma finishes_ret {A} (a : A) : finishes (mret a : M St A).
Proof. intros m. done. Qed.

Lemma finishes_bind {A B} (c : M St A) (k : A -> M St B) :
  finishes c -> (forall a, finishes (k a)) -> finishes (c ≫= k).
Proof.
  intros Hc Hk m. rewrite bind_run. specialize (Hc m).
  destruct (c m) as [[a|e|] m']; simpl in *; [apply Hk|done|done].
Qed.

Lemma finishes_for_of_acc {A B} (l : list A) (body : B -> A -> M St B) :
  (forall acc x, finishes (body acc x)) ->
  forall acc, finishes (for_of_acc l acc body).
Proof.
  intros Hb. induction l as [|x l IH]; intros acc; simpl.
  - apply finishes_ret.
  - apply finishes_bind; [apply Hb|]. intros acc'. apply IH.
Qed.

Lemma same_but_console_refl m : same_but_console m m.
Proof. done. Qed.

End Rules.

(** ** The recursive lister *)

Section Lister.
Context {St : Type} (drive : Drive St).
Context (maxDepth : Z) (includeFiles includeFolders : bool)
        (mimeType : option string).

Local Notation "'trav'" :=
  (traverseFolder drive maxDepth includeFiles includeFolders mimeType).
Local Notation "'tquery'" :=
  (traverse_query includeFiles includeFolders mimeType).

Lemma traverseFolder_run fuel' parentId depth path (m : Machine St) :
  trav (Datatypes.S fuel') parentId depth path m
  = if (maxDepth <=? depth) || bool_decide (parentId ∈ visited m)
    then (Ok tt, m)
    else
      try_catch
        (drive_files_list drive (tquery parentId) ≫= fun response =>
           for_of (default [] (files response))
                  (traverse_entry (trav fuel') depth path))
        (traverse_failed parentId)
        (snd (visited_add parentId m)).
Proof.
  simpl. rewrite bind_run. unfold visited_has.
  destruct ((maxDepth <=? depth) || bool_decide (parentId ∈ visited m));
    reflexivity.
Qed.

Lemma queried_parents_traverse parentId :
  queried_parents (q (tquery parentId)) = [parentId].
Proof.
  unfold traverse_query, traverse_clauses. simpl.
  destruct includeFiles, includeFolders, mimeType as [mt|]; simpl;
    try destruct (truthy mt); reflexivity.
Qed.

(** *** The traversal always comes back *)

Lemma traverse_entry_returns recur depth path file :
  (forall i p, returns (recur i (depth + 1) p : M St unit)) ->
  returns (traverse_entry recur depth path file).
Proof.
  intros Hr. unfold traverse_entry. apply returns_bind.
  - intros m. by exists tt.
  - intros _. destruct (String.eqb _ _); [apply Hr|apply returns_ret].
Qed.

Lemma traverseFolder_returns fuel :
  forall parentId depth path,
    (Z.to_nat (maxDepth - depth) < fuel)%nat ->
    returns (trav fuel parentId depth path).
Proof.
  induction fuel as [|fuel' IH]; intros parentId depth path Hfuel; [lia|].
  intros m. rewrite traverseFolder_run.
  destruct (maxDepth <=? depth) eqn:Hd; simpl; [by exists tt|].
  destruct (bool_decide _); [by exists tt|].
  apply Z.leb_gt in Hd.
  unfold try_catch. rewrite bind_run. unfold drive_files_list.
  destruct (files_list drive _ _) as [e|response]; simpl.
  - by exists tt.
  - match goal with
    | |- context [for_of ?l ?b ?m'] =>
        destruct (returns_for_of l b) with (m := m') as [[] Hok]
    end.
    + intros file. apply traverse_entry_returns. intros i p.
      apply IH. lia.
    + destruct (for_of _ _ _) as [o m']. simpl in Hok. subst o.
      by exists tt.
Qed.

(** *** More budget changes nothing *)

Lemma traverse_entry_related R recur1 recur2 depth path file :
  (forall it, related R (allItems_push it : M St unit) (allItems_push it)) ->
  (forall i p, related R (recur1 i (depth + 1) p) (recur2 i (depth + 1) p)) ->
  related R (traverse_entry recur1 depth path file)
            (traverse_entry recur2 depth path file).
Proof.
  intros Hpush Hr. unfold traverse_entry. apply related_bind; [apply Hpush|].
  intros _. destruct (String.eqb _ _); [apply Hr|apply related_ret].
Qed.

Lemma traverseFolder_fuel fuel1 :
  forall fuel2 parentId depth path,
    (Z.to_nat (maxDepth - depth) < fuel1)%nat ->
    (Z.to_nat (maxDepth - depth) < fuel2)%nat ->
    related eq (trav fuel1 parentId depth path) (trav fuel2 parentId depth path).
Proof.
  induction fuel1 as [|fuel1 IH]; intros [|fuel2] parentId depth path H1 H2;
    try lia.
  intros m ? <-. rewrite !traverseFolder_run.
  destruct (maxDepth <=? depth) eqn:Hd; simpl; [done|].
  destruct (bool_decide _); [done|].
  apply Z.leb_gt in Hd.
  apply related_try_catch; [|intros e; apply related_refl|done].
  apply related_bind; [apply related_refl|]. intros response.
  apply related_for_of. intros file.
  apply traverse_entry_related; [intros it; apply related_refl|].
  intros i p. apply IH; lia.
Qed.

(** *** No folder is expanded twice *)

Lemma expanded_app l1 l2 : expanded (l1 ++ l2) = expanded l1 ++ expanded l2.
Proof. unfold expanded. apply flat_map_app. Qed.

Lemma traverse_entry_preserves I recur depth path file :
  (forall it, preserves I (allItems_push it : M St unit)) ->
  (forall i p, preserves I (recur i (depth + 1) p : M St unit)) ->
  preserves I (traverse_entry recur depth path file).
Proof.
  intros Hpush Hr. unfold traverse_entry. apply preserves_bind; [apply Hpush|].
  intros _. destruct (String.eqb _ _); [apply Hr|apply preserves_ret].
Qed.

Lemma traverseFolder_expanded_once pre fuel :
  forall parentId depth path,
    preserves (expanded_once pre) (trav fuel parentId depth path).
Proof.
  induction fuel as [|fuel' IH]; intros parentId depth path m Hm; [done|].
  rewrite traverseFolder_run.
  destruct (maxDepth <=? depth); simpl; [done|].
  destruct (bool_decide _) eqn:Hseen; [done|].
  apply bool_decide_eq_false in Hseen.
  destruct Hm as (new & Hcalls & Hnodup & Hvis).
  set (m1 := log_call (CList (tquery parentId))
                      (mkMachine (backend m) (calls m) (console m)
                                 (allItems m) ({[parentId]} ∪ visited m))).
  assert (Hm1 : expanded_once pre m1).
  { exists (new ++ [CList (tquery parentId)]).
    split; [simpl; by rewrite Hcalls, app_assoc|].
    rewrite expanded_app.
    replace (expanded [CList (tquery parentId)]) with [parentId]
      by (unfold expanded; cbn [flat_map];
          by rewrite queried_parents_traverse).
    simpl visited.
    split.
    - apply NoDup_app. split; [done|]. split; [|apply NoDup_singleton].
      intros p Hp Hp'. apply list_elem_of_singleton in Hp' as ->.
      apply Hseen, Hvis, Hp.
    - intros p Hp. apply elem_of_app in Hp as [Hp|Hp].
      + apply elem_of_union_r, Hvis, Hp.
      + apply list_elem_of_singleton in Hp as ->.
        apply elem_of_union_l. by apply elem_of_singleton. }
  unfold try_catch. rewrite bind_run. unfold drive_files_list. simpl.
  fold m1.
  destruct (files_list drive _ _) as [e|response]; simpl.
  - destruct Hm1 as (new1 & ? & ? & ?). by exists new1.
  - match goal with
    | |- context [for_of ?l ?b m1] =>
        pose proof (preserves_for_of (expanded_once pre) l b) as Hloop
    end.
    match type of Hloop with
    | ?P -> _ => assert (Hbody : P)
    end.
    { intros file. apply traverse_entry_preserves.
      - intros it m' (new' & ? & ? & ?). by exists new'.
      - intros i p. apply IH. }
    specialize (Hloop Hbody m1 Hm1).
    destruct (for_of _ _ m1) as [[[]|e|] m2]; simpl in *; done.
Qed.

(** *** Items are collected below [maxDepth] only *)

Lemma traverseFolder_depths_below fuel :
  forall parentId depth path,
    0 <= depth ->
    preserves (depths_below maxDepth) (trav fuel parentId depth path).
Proof.
  induction fuel as [|fuel' IH]; intros parentId depth path Hpos m Hm;
    [done|].
  rewrite traverseFolder_run.
  destruct (maxDepth <=? depth) eqn:Hd; simpl; [done|].
  destruct (bool_decide _); [done|].
  apply Z.leb_gt in Hd.
  apply preserves_try_catch; [| |exact Hm].
  - apply preserves_bind; [by intros m'|]. intros response.
    apply preserves_for_of. intros file m' Hm'.
    unfold traverse_entry. apply preserves_bind; [| |exact Hm'].
    + intros m'' Hm''. unfold depths_below in *. simpl.
      apply Forall_app. split; [done|]. apply Forall_singleton. simpl. lia.
    + intros _. destruct (String.eqb _ _); [|apply preserves_ret].
      apply IH. lia.
  - by intros e m'.
Qed.

(** *** The handler *)

Local Notation "'lfr'" :=
  (list_folder_recursive drive).

Lemma list_folder_recursive_run folderId fuel (m : Machine St) :
  (enough maxDepth <= fuel)%nat ->
  let m' := snd (trav fuel folderId 0 "" (snd (fresh_locals m))) in
  lfr folderId maxDepth includeFiles includeFolders mimeType fuel m
  = (Ok (mkListRecursiveResponse (allItems m') (length (allItems m'))
                                 folderId maxDepth), m').
Proof.
  intros Hfuel. simpl. unfold list_folder_recursive. apply handle_ok.
  rewrite bind_run. simpl.
  destruct (traverseFolder_returns fuel folderId 0 ""
              ltac:(unfold enough in Hfuel; lia)
              (snd (fresh_locals m))) as [[] Hok].
  rewrite bind_run.
  destruct (trav fuel folderId 0 "" _) as [o m']. simpl in *. subst o.
  reflexivity.
Qed.

Lemma list_folder_recursive_fuel folderId fuel (m : Machine St) :
  (enough maxDepth <= fuel)%nat ->
  lfr folderId maxDepth includeFiles includeFolders mimeType fuel m
  = lfr folderId maxDepth includeFiles includeFolders mimeType
        (enough maxDepth) m.
Proof.
  intros Hfuel. rewrite !list_folder_recursive_run by (done || lia).
  rewrite (related_eq_run (trav fuel folderId 0 "")
                          (trav (enough maxDepth) folderId 0 "")); [done|].
  apply traverseFolder_fuel; unfold enough in *; lia.
Qed.

(** C5: whatever the backend answers (so also when a folder is listed
    among its own descendants), [list_folder_recursive] comes back with a
    response, for every recursion budget from [enough maxDepth] on and
    always the same one; and among the list requests it sent no folder id
    occurs twice: a folder is only expanded when it is not in [visited],
    and it is put there before its children are requested. *)
Theorem list_folder_recursive_terminates_once folderId k (m : Machine St) :
  let r := lfr folderId maxDepth includeFiles includeFolders mimeType
               (enough maxDepth + k) m in
  (exists resp, fst r = Ok resp)
  /\ r = lfr folderId maxDepth includeFiles includeFolders mimeType
            (enough maxDepth) m
  /\ NoDup (expanded (issued m r)).
Proof.
  cbv zeta. split; [|split].
  - rewrite list_folder_recursive_run by lia. by eexists.
  - apply list_folder_recursive_fuel. lia.
  - rewrite list_folder_recursive_run by lia. unfold issued. cbn [snd].
    pose proof (traverseFolder_expanded_once (calls m) (enough maxDepth + k)
                  folderId 0 "" (snd (fresh_locals m))) as Hinv.
    destruct Hinv as (new & Hcalls & Hnodup & _).
    { exists []. simpl. rewrite app_nil_r. split; [done|].
      split; [apply NoDup_nil_2|]. intros p Hp. by apply elem_of_nil in Hp. }
    rewrite Hcalls, drop_app_length. exact Hnodup.
Qed.

Lemma list_folder_recursive_depths folderId fuel (m : Machine St) :
  (enough maxDepth <= fuel)%nat ->
  match fst (lfr folderId maxDepth includeFiles includeFolders mimeType
                 fuel m) with
  | Ok resp => Forall (fun it => 0 <= item_depth it < maxDepth)
                      (resp_items resp)
  | _ => False
  end.
Proof.
  intros Hfuel. rewrite list_folder_recursive_run by done. simpl.
  apply (traverseFolder_depths_below fuel folderId 0 "" ltac:(lia)
           (snd (fresh_locals m))).
  apply Forall_nil_2.
Qed.

End Lister.

(** ** The recursive lister against a failing backend *)

Section LenientLister.
Context {St : Type} (drive : Drive St).
Context (maxDepth : Z) (includeFiles includeFolders : bool)
        (mimeType : option string).

Local Notation "'trav'" :=
  (traverseFolder drive maxDepth includeFiles includeFolders mimeType).
Local Notation "'trav_lenient'" :=
  (traverseFolder (lenient drive) maxDepth includeFiles includeFolders
                  mimeType).
Local Notation "'tquery'" :=
  (traverse_query includeFiles includeFolders mimeType).

Lemma push_same_but_console it :
  related same_but_console (allItems_push it : M St unit) (allItems_push it).
Proof.
  intros m1 m2 (Hb & Hc & Hi & Hv). split; [done|].
  unfold same_but_console. simpl. by rewrite Hi.
Qed.

(** A branch whose listing fails counts as a folder without children. *)
Lemma traverseFolder_lenient fuel :
  forall parentId depth path,
    related same_but_console (trav fuel parentId depth path)
                             (trav_lenient fuel parentId depth path).
Proof.
  induction fuel as [|fuel' IH]; intros parentId depth path m1 m2 HR;
    [done|].
  rewrite !traverseFolder_run.
  destruct HR as (Hb & Hc & Hi & Hv). rewrite Hv.
  destruct ((maxDepth <=? depth) || bool_decide (parentId ∈ visited m2));
    [done|].
  unfold try_catch. rewrite !bind_run. unfold drive_files_list.
  simpl backend. simpl files_list. rewrite Hb.
  destruct (files_list drive (tquery parentId) (backend m2))
    as [e|response]; simpl.
  - unfold same_but_console. simpl. by rewrite Hc, Hi, Hv.
  - match goal with
    | |- context [for_of ?l ?b1 ?n1] =>
        match goal with
        | |- context [for_of l ?b2 ?n2] =>
            lazymatch b1 with
            | b2 => fail
            | _ => destruct (related_for_of same_but_console l b1 b2)
                     with (m1 := n1) (m2 := n2) as [Ho Hm]
            end
        end
    end.
    + intros file. apply traverse_entry_related;
        [apply push_same_but_console|]. intros i p. apply IH.
    + unfold same_but_console. simpl. by rewrite Hc, Hi, Hv.
    + destruct (for_of _ _ _) as [o1 n1], (for_of _ _ _) as [o2 n2].
      simpl in Ho, Hm. subst o2. destruct o1 as [[]|e|]; simpl; done.
Qed.

Lemma list_folder_recursive_lenient folderId fuel (m : Machine St) :
  (enough maxDepth <= fuel)%nat ->
  fst (list_folder_recursive drive folderId maxDepth includeFiles
         includeFolders mimeType fuel m)
  = fst (list_folder_recursive (lenient drive) folderId maxDepth includeFiles
           includeFolders mimeType fuel m).
Proof.
  intros Hfuel. rewrite !list_folder_recursive_run by done.
  cbv zeta. cbn [fst].
  destruct (traverseFolder_lenient fuel folderId 0 ""
              (snd (fresh_locals m)) (snd (fresh_locals m))
              (same_but_console_refl _)) as [_ (_ & _ & Hi & _)].
  by rewrite Hi.
Qed.

Lemma traverseFolder_backend fuel :
  forall parentId depth path (s : St),
    preserves (fun m => backend m = s) (trav fuel parentId depth path).
Proof.
  induction fuel as [|fuel' IH]; intros parentId depth path s m Hm; [done|].
  rewrite traverseFolder_run.
  destruct ((maxDepth <=? depth) || bool_decide (parentId ∈ visited m));
    [done|].
  apply preserves_try_catch; [| |exact Hm].
  - apply preserves_bind; [by intros m'|]. intros response.
    apply preserves_for_of. intros file.
    apply traverse_entry_preserves; [by intros it m'|]. intros i p. apply IH.
  - by intros e m'.
Qed.

End LenientLister.

(** ** The tree builder *)

Section TreeBuilder.
Context {St : Type} (drive : Drive St).
Context (maxDepth : Z) (includeFiles : bool).

Local Notation "'build'" := (buildTree drive maxDepth includeFiles).
Local Notation "'tquery'" := (tree_query includeFiles).

Lemma buildTree_run fuel' parentId depth (m : Machine St) :
  build (Datatypes.S fuel') parentId depth m
  = if maxDepth <=? depth then (Ok null, m)
    else
      (drive_files_list drive (tquery parentId) ≫= fun response =>
         for_of_acc (default [] (files response)) []
                    (tree_entry (build fuel') depth) ≫= fun items =>
           mret (value items)) m.
Proof. simpl. destruct (maxDepth <=? depth); reflexivity. Qed.

(** *** With enough budget the builder is never cut off *)

Lemma tree_entry_finishes recur depth items file :
  (forall i, finishes (recur i (depth + 1)
                       : M St (Nullable (list TreeNode)))) ->
  finishes (tree_entry recur depth items file).
Proof.
  intros Hr. unfold tree_entry. apply finishes_bind.
  - destruct (String.eqb _ _); [|apply finishes_ret].
    apply finishes_bind; [apply Hr|]. intros ch. apply finishes_ret.
  - intros item'. apply finishes_ret.
Qed.

Lemma buildTree_finishes fuel :
  forall parentId depth,
    (Z.to_nat (maxDepth - depth) < fuel)%nat ->
    finishes (build fuel parentId depth).
Proof.
  induction fuel as [|fuel' IH]; intros parentId depth Hfuel; [lia|].
  intros m. rewrite buildTree_run.
  destruct (maxDepth <=? depth) eqn:Hd; [done|]. apply Z.leb_gt in Hd.
  apply finishes_bind.
  - intros m'. unfold drive_files_list. simpl.
    by destruct (files_list drive _ _).
  - intros response. apply finishes_bind.
    + apply finishes_for_of_acc. intros acc file.
      apply tree_entry_finishes. intros i. apply IH. lia.
    + intros items. apply finishes_ret.
Qed.

(** *** More budget changes nothing *)

Lemma tree_entry_related R recur1 recur2 depth items file :
  (forall i, related R (recur1 i (depth + 1)) (recur2 i (depth + 1))) ->
  related R (tree_entry (St := St) recur1 depth items file)
            (tree_entry recur2 depth items file).
Proof.
  intros Hr. unfold tree_entry. apply related_bind.
  - destruct (String.eqb _ _); [|apply related_ret].
    apply related_bind; [apply Hr|]. intros ch. apply related_ret.
  - intros item'. apply related_ret.
Qed.

Lemma buildTree_fuel fuel1 :
  forall fuel2 parentId depth,
    (Z.to_nat (maxDepth - depth) < fuel1)%nat ->
    (Z.to_nat (maxDepth - depth) < fuel2)%nat ->
    related eq (build fuel1 parentId depth) (build fuel2 parentId depth).
Proof.
  induction fuel1 as [|fuel1 IH]; intros [|fuel2] parentId depth H1 H2;
    try lia.
  intros m ? <-. rewrite !buildTree_run.
  destruct (maxDepth <=? depth) eqn:Hd; [done|]. apply Z.leb_gt in Hd.
  apply related_bind; [apply related_refl| |done]. intros response.
  apply related_bind; [|intros items; apply related_refl].
  apply related_for_of_acc. intros acc file.
  apply tree_entry_related. intros i. apply IH; lia.
Qed.

(** *** The builder stops at the first failure *)

Section Strict.
Context (s : St) (pre : list Call).

Lemma strict_ret {A} (a : A) : strict drive s pre (mret a : M St A).
Proof. intros m Hm. exact Hm. Qed.

Lemma strict_bind {A B} (c : M St A) (k : A -> M St B) :
  strict drive s pre c -> (forall a, strict drive s pre (k a)) ->
  strict drive s pre (c ≫= k).
Proof.
  intros Hc Hk m Hm. rewrite bind_run. specialize (Hc m Hm).
  destruct (c m) as [[a|e|] m']; simpl in *; [by apply Hk|done|done].
Qed.

Lemma strict_for_of_acc {A B} (l : list A) (body : B -> A -> M St B) :
  (forall acc x, strict drive s pre (body acc x)) ->
  forall acc, strict drive s pre (for_of_acc l acc body).
Proof.
  intros Hb. induction l as [|x l IH]; intros acc; simpl.
  - apply strict_ret.
  - apply strict_bind; [apply Hb|]. intros acc'. apply IH.
Qed.

Lemma strict_list p : strict drive s pre (drive_files_list drive p).
Proof.
  intros m (Hb & answered & Hcalls & Hall).
  unfold drive_files_list. simpl. rewrite Hb.
  destruct (files_list drive p s) as [e|response] eqn:Hl; simpl.
  - split; [done|]. exists answered, (CList p). simpl.
    rewrite Hcalls, <- app_assoc. repeat split; [done|].
    simpl. by rewrite Hl.
  - split; [done|]. exists (answered ++ [CList p]). simpl.
    rewrite Hcalls, <- app_assoc. split; [done|].
    apply Forall_app. split; [done|]. apply Forall_singleton.
    simpl. by rewrite Hl.
Qed.

Lemma strict_get i : strict drive s pre (drive_files_get drive i).
Proof.
  intros m (Hb & answered & Hcalls & Hall).
  unfold drive_files_get. simpl. rewrite Hb.
  destruct (files_get drive i s) as [e|f] eqn:Hg; simpl.
  - split; [done|]. exists answered, (CGet i). simpl.
    rewrite Hcalls, <- app_assoc. repeat split; [done|].
    simpl. by rewrite Hg.
  - split; [done|]. exists (answered ++ [CGet i]). simpl.
    rewrite Hcalls, <- app_assoc. split; [done|].
    apply Forall_app. split; [done|]. apply Forall_singleton.
    simpl. by rewrite Hg.
Qed.

Lemma buildTree_strict fuel :
  forall parentId depth, strict drive s pre (build fuel parentId depth).
Proof.
  induction fuel as [|fuel' IH]; intros parentId depth; [done|].
  intros m Hm. rewrite buildTree_run.
  destruct (maxDepth <=? depth); [done|]. revert m Hm.
  apply strict_bind; [apply strict_list|]. intros response.
  apply strict_bind; [|intros items; apply strict_ret].
  apply strict_for_of_acc. intros acc file. unfold tree_entry.
  apply strict_bind; [|intros item'; apply strict_ret].
  destruct (String.eqb _ _); [|apply strict_ret].
  apply strict_bind; [apply IH|]. intros ch. apply strict_ret.
Qed.

End Strict.

End TreeBuilder.

Section TreeHandler.
Context {St : Type} (drive : Drive St).
Context (folderId : string) (maxDepth : Z) (includeFiles : bool).

Local Notation "'gft'" := (get_folder_tree drive folderId maxDepth includeFiles).

Lemma handle_strict {A} s pre (op : M St A) :
  strict drive s pre op -> strict drive s pre (handleDriveOperation op).
Proof.
  intros Hop m Hm. specialize (Hop m Hm).
  destruct (op m) as [[a|e|] m'] eqn:E; simpl in Hop.
  - by rewrite (handle_ok _ _ _ _ E).
  - by rewrite (handle_throw _ _ _ _ E).
  - by rewrite (handle_out _ _ _ E).
Qed.

Lemma handle_finishes {A} (op : M St A) :
  finishes op -> finishes (handleDriveOperation op).
Proof.
  intros Hop m. specialize (Hop m).
  destruct (op m) as [[a|e|] m'] eqn:E; simpl in Hop.
  - by rewrite (handle_ok _ _ _ _ E).
  - by rewrite (handle_throw _ _ _ _ E).
  - done.
Qed.

Lemma get_folder_tree_strict s pre fuel : strict drive s pre (gft fuel).
Proof.
  unfold get_folder_tree. apply handle_strict.
  apply strict_bind.
  - destruct (negb _); [|apply strict_ret].
    apply strict_bind; [apply strict_get|]. intros f. apply strict_ret.
  - intros rootName. apply strict_bind; [apply buildTree_strict|].
    intros tree. apply strict_ret.
Qed.

Lemma get_folder_tree_finishes fuel :
  (enough maxDepth <= fuel)%nat -> finishes (gft fuel).
Proof.
  intros Hfuel. unfold get_folder_tree. apply handle_finishes.
  apply finishes_bind.
  - destruct (negb _); [|apply finishes_ret].
    apply finishes_bind.
    + intros m. unfold drive_files_get. simpl.
      by destruct (files_get drive _ _).
    + intros f. apply finishes_ret.
  - intros rootName. apply finishes_bind.
    + apply buildTree_finishes. unfold enough in Hfuel. lia.
    + intros tree. apply finishes_ret.
Qed.

Lemma get_folder_tree_fuel fuel (m : Machine St) :
  (enough maxDepth <= fuel)%nat -> gft fuel m = gft (enough maxDepth) m.
Proof.
  intros Hfuel. apply related_eq_run. unfold get_folder_tree.
  apply related_try_catch; [|intros e; apply related_refl].
  apply related_bind; [apply related_refl|]. intros rootName.
  apply related_bind; [|intros tree; apply related_refl].
  apply buildTree_fuel; unfold enough in *; lia.
Qed.

(** A failed request of a tree build is its last one, and its error is
    the outcome of the build. *)
Lemma get_folder_tree_aborts fuel (m : Machine St) c e :
  (enough maxDepth <= fuel)%nat ->
  c ∈ issued m (gft fuel m) ->
  call_failure drive (backend m) c = Some e ->
  fst (gft fuel m) = Throw e.
Proof.
  intros Hfuel Hc He.
  pose proof (get_folder_tree_finishes fuel Hfuel m) as Hfin.
  pose proof (get_folder_tree_strict (backend m) (calls m) fuel m) as Hs.
  unfold issued in Hc.
  destruct (gft fuel m) as [[resp|e0|] m']; simpl in *; [| |done].
  - destruct Hs as (_ & answered & Hcalls & Hall).
    { split; [done|]. exists []. by rewrite app_nil_r. }
    rewrite Hcalls, drop_app_length in Hc.
    rewrite Forall_forall in Hall. specialize (Hall c Hc). congruence.
  - destruct Hs as (_ & answered & c0 & Hcalls & Hall & He0).
    { split; [done|]. exists []. by rewrite app_nil_r. }
    rewrite Hcalls, drop_app_length in Hc.
    apply elem_of_app in Hc as [Hc|Hc].
    + rewrite Forall_forall in Hall. specialize (Hall c Hc). congruence.
    + apply list_elem_of_singleton in Hc as ->. congruence.
Qed.

End TreeHandler.

(** C6: the two traversals treat a failing backend differently.  The
    recursive lister always answers with a response, the one it would give if
    every failing list request had answered with no files (the branch
    contributes nothing, the rest is listed), and it leaves the backend as it
    was.  The tree builder gives no tree once a request has failed: the
    error of that request is the outcome of the whole handler. *)
Theorem lister_lenient_tree_strict {St} (drive : Drive St) :
  (forall folderId maxDepth includeFiles includeFolders mimeType k
          (m : Machine St),
      let r := list_folder_recursive drive folderId maxDepth includeFiles
                 includeFolders mimeType (enough maxDepth + k) m in
      (exists resp, fst r = Ok resp)
      /\ fst r = fst (list_folder_recursive (lenient drive) folderId maxDepth
                        includeFiles includeFolders mimeType
                        (enough maxDepth + k) m)
      /\ backend (snd r) = backend m)
  /\ (forall folderId maxDepth includeFiles k (m : Machine St) c e,
        let r := get_folder_tree drive folderId maxDepth includeFiles
                   (enough maxDepth + k) m in
        c ∈ issued m r ->
        call_failure drive (backend m) c = Some e ->
        fst r = Throw e).
Proof.
  split.
  - intros folderId maxDepth includeFiles includeFolders mimeType k m.
    cbv zeta. split; [|split].
    + rewrite list_folder_recursive_run by lia. by eexists.
    + apply list_folder_recursive_lenient. lia.
    + rewrite list_folder_recursive_run by lia. cbn [snd].
      by apply traverseFolder_backend.
  - intros folderId maxDepth includeFiles k m c e. cbv zeta.
    apply get_folder_tree_aborts. lia.
Qed.

(** ** The recursive lister on the storage backend *)

Section ListerOnStore.
Context (maxDepth : Z) (includeFiles includeFolders : bool)
        (mimeType : option string).

Local Notation "'trav'" :=
  (traverseFolder store_drive maxDepth includeFiles includeFolders mimeType).
Local Notation "'tclauses'" :=
  (traverse_clauses includeFiles includeFolders mimeType).

Lemma insert_by_name_Forall (P : File -> Prop) f l :
  P f -> Forall P l -> Forall P (insert_by_name f l).
Proof.
  intros Hf Hl. induction Hl as [|g l Hg Hl IH]; simpl.
  - by apply Forall_singleton.
  - destruct (String.ltb _ _); repeat constructor; done.
Qed.

Lemma arrange_Forall (P : File -> Prop) orderBy l :
  Forall P l -> Forall P (arrange orderBy l).
Proof.
  intros Hl. unfold arrange. destruct orderBy as [key|]; [|done].
  destruct (String.eqb key "name"); [|done].
  assert (Hacc : Forall P []) by constructor.
  revert Hacc. generalize (@nil File).
  induction Hl as [|f l Hf Hl IH]; intros acc Hacc; simpl; [done|].
  apply IH. by apply insert_by_name_Forall.
Qed.

(** The store answers a list request with files that satisfy its query. *)
Lemma store_list_satisfies p s response :
  store_list p s = inr response ->
  Forall (fun f => satisfies (q p) f = true) (default [] (files response)).
Proof.
  unfold store_list. destruct (refused _ _); [done|]. intros [= <-]. simpl.
  apply Forall_take, arrange_Forall, Forall_forall. intros f Hf.
  by apply list_elem_of_In, filter_In in Hf as [_ Hf].
Qed.

Lemma satisfies_clause qs f c :
  satisfies qs f = true -> c ∈ qs -> clause_holds f c = true.
Proof.
  unfold satisfies. rewrite forallb_forall. intros H Hc.
  by apply H, list_elem_of_In.
Qed.

Lemma filtered_not_folder parentId f :
  folders_filtered includeFiles includeFolders mimeType = true ->
  satisfies (tclauses parentId) f = true ->
  String.eqb (file_mimeType f) FOLDER_MIME = false
  /\ parentId ∈ file_parents f.
Proof.
  intros Hflt Hsat. split.
  - unfold folders_filtered in Hflt.
    apply andb_true_iff in Hflt as [-> Hflt].
    apply orb_true_iff in Hflt as [Hflt|Hflt].
    + apply negb_true_iff in Hflt as ->.
      pose proof (satisfies_clause _ f (MimeTypeNe FOLDER_MIME) Hsat) as Hc.
      simpl in Hc. apply negb_true_iff, Hc.
      unfold traverse_clauses. simpl. set_solver.
    + destruct mimeType as [mt|]; [|done].
      apply andb_true_iff in Hflt as [Htruthy Hne].
      pose proof (satisfies_clause _ f (MimeTypeEq mt) Hsat) as Hc.
      simpl in Hc. apply String.eqb_eq in Hc.
      * rewrite Hc. by apply negb_true_iff.
      * unfold traverse_clauses. rewrite Htruthy. simpl.
        destruct includeFolders; simpl; set_solver.
  - assert (Hin : InParents parentId ∈ tclauses parentId)
      by (unfold traverse_clauses; set_solver).
    apply (satisfies_clause _ f _ Hsat) in Hin. simpl in Hin.
    by apply bool_decide_eq_true in Hin.
Qed.

(** Over files that are not folders the loop only collects. *)
Lemma for_of_leaves recur depth path l (m : Machine Store) :
  Forall (fun f => String.eqb (file_mimeType f) FOLDER_MIME = false) l ->
  for_of l (traverse_entry recur depth path) m
  = (Ok tt,
     mkMachine (backend m) (calls m) (console m)
               (allItems m
                ++ ((fun f => mkItem f (child_path path f) depth) <$> l))
               (visited m)).
Proof.
  intros Hl. revert m. induction Hl as [|f l Hf Hl IH]; intros m; simpl.
  - rewrite app_nil_r. by destruct m.
  - rewrite bind_run. unfold traverse_entry at 1. rewrite bind_run.
    unfold allItems_push at 1. rewrite Hf. simpl. rewrite IH. simpl.
    by rewrite <- app_assoc.
Qed.

Lemma traverseFolder_flat fuel folderId path (m : Machine Store) :
  folders_filtered includeFiles includeFolders mimeType = true ->
  let m' := snd (trav fuel folderId 0 path m) in
  (exists l,
      allItems m' = allItems m ++ l /\ Forall (direct_leaf folderId) l)
  /\ (exists cs, calls m' = calls m ++ cs /\ (length cs <= 1)%nat).
Proof.
  intros Hflt. destruct fuel as [|fuel'].
  { simpl. split; [exists []|exists []]; rewrite app_nil_r; by repeat constructor. }
  cbv zeta. rewrite traverseFolder_run.
  destruct ((maxDepth <=? 0) || bool_decide (folderId ∈ visited m)).
  { simpl. split; [exists []|exists []]; rewrite app_nil_r; by repeat constructor. }
  unfold try_catch. rewrite bind_run. unfold drive_files_list.
  simpl files_list. simpl backend.
  destruct (store_list _ (backend m)) as [e|response] eqn:Hlist.
  { simpl. split; [exists []; rewrite app_nil_r; by repeat constructor|].
    eexists. split; [reflexivity|]. simpl. lia. }
  apply store_list_satisfies in Hlist. simpl q in Hlist.
  assert (Hleaves : Forall (fun f => String.eqb (file_mimeType f) FOLDER_MIME
                             = false /\ folderId ∈ file_parents f)
                      (default [] (files response))).
  { eapply Forall_impl; [exact Hlist|]. intros f Hf.
    by apply filtered_not_folder. }
  cbn [of_result].
  rewrite for_of_leaves by (eapply Forall_impl; [exact Hleaves|]; by intros f []).
  simpl. split.
  - eexists. split; [reflexivity|]. apply Forall_fmap.
    eapply Forall_impl; [exact Hleaves|]. intros f [Hf Hp].
    unfold direct_leaf. simpl. split; [done|]. split; [|done].
    intros Heq. rewrite Heq in Hf. discriminate.
  - eexists. split; [reflexivity|]. simpl. lia.
Qed.

(** When the options filter folders out of the requests the listing is
    flat: only direct children of the start folder, none of them a folder,
    and at most one request. *)
Lemma filtered_listing_is_flat folderId k (s : Store) :
  folders_filtered includeFiles includeFolders mimeType = true ->
  let r := list_folder_recursive store_drive folderId maxDepth includeFiles
             includeFolders mimeType (enough maxDepth + k) (boot s) in
  Forall (direct_leaf folderId) (items_of r)
  /\ (length (issued (boot s) r) <= 1)%nat.
Proof.
  intros Hflt. cbv zeta. rewrite list_folder_recursive_run by lia.
  unfold items_of, issued. cbn [fst snd resp_items].
  destruct (traverseFolder_flat (enough maxDepth + k) folderId ""
              (snd (fresh_locals (boot s))) Hflt)
    as [(l & Hitems & Hl) (cs & Hcalls & Hcs)].
  rewrite Hitems, Hcalls. simpl. done.
Qed.

End ListerOnStore.

(** ** The worked scenarios *)

(** On the looped backend the traversal lists L under the root and under
    itself, and expands each of the two folders once. *)
Example looped_listing :
  let r := list_folder_recursive store_drive "root" 50 true true None
             (enough 50) (boot looped) in
  listing (items_of r) = [("L", 0); ("L/L", 1)]
  /\ expanded (issued (boot looped) r) = ["root"; "L"].
Proof. vm_compute. split; reflexivity. Qed.

(** C1, as the code has it: with [maxDepth = 1] only the children of the
    root are listed, here the single entry A at depth 0; the three entries
    A, A/x.txt and A/B are what [maxDepth = 2] gives.  A folder met at depth
    [d] is entered at depth [d + 1] and [traverseFolder] returns at once
    when that reaches [maxDepth], so on every backend every entry listed has
    a depth from 0 up to, not including, [maxDepth]. *)
Theorem entries_stay_below_max_depth :
  (forall k,
      listing (items_of (list_folder_recursive store_drive "root" 1 true true
                           None (enough 1 + k) (boot fixture)))
      = [("A", 0)])
  /\ (forall k,
        listing (items_of (list_folder_recursive store_drive "root" 2 true true
                             None (enough 2 + k) (boot fixture)))
        = [("A", 0); ("A/x.txt", 1); ("A/B", 1)])
  /\ (forall St (drive : Drive St) folderId maxDepth includeFiles
             includeFolders mimeType k (m : Machine St),
        Forall (fun it => 0 <= item_depth it < maxDepth)
               (items_of (list_folder_recursive drive folderId maxDepth
                            includeFiles includeFolders mimeType
                            (enough maxDepth + k) m))).
Proof.
  split; [|split].
  - intros k. rewrite list_folder_recursive_fuel by lia.
    vm_compute. reflexivity.
  - intros k. rewrite list_folder_recursive_fuel by lia.
    vm_compute. reflexivity.
  - intros St drive folderId maxDepth includeFiles includeFolders mimeType k m.
    pose proof (list_folder_recursive_depths drive maxDepth includeFiles
                  includeFolders mimeType folderId (enough maxDepth + k) m
                  ltac:(lia)) as H.
    unfold items_of. by destruct (fst _).
Qed.

(** The listing claimed for [maxDepth = 1] is not the one returned. *)
Lemma boundary_entries_not_listed :
  listing (items_of (list_folder_recursive store_drive "root" 1 true true None
                       (enough 1) (boot fixture)))
  <> [("A", 0); ("A/x.txt", 1); ("A/B", 1)].
Proof. vm_compute. discriminate. Qed.

(** C2, at the input where the code departs from it: with
    [includeFolders = false] and [includeFiles = true] the clause that keeps
    folders out of the output is part of the very request that should find
    the folders to descend into.  On the fixture the root's listing then
    holds no folder, only the root is ever expanded, and x.txt, a leaf under
    folder A, is not in the output.  On every store the output has no
    folder, as the claim says, but nothing below the start folder either:
    every entry is a direct child of it, and at most one request is sent. *)
Theorem folders_filtered_out_are_not_entered :
  (forall k,
      let r := list_folder_recursive store_drive "root" 5 true false None
                 (enough 5 + k) (boot fixture) in
      items_of r = []
      /\ expanded (issued (boot fixture) r) = ["root"]
      /\ (fileX ∈ entries fixture /\ file_parents fileX = ["A"]
          /\ file_mimeType fileX <> FOLDER_MIME))
  /\ (forall (s : Store) folderId maxDepth mimeType k,
        let r := list_folder_recursive store_drive folderId maxDepth true false
                   mimeType (enough maxDepth + k) (boot s) in
        Forall (direct_leaf folderId) (items_of r)
        /\ (length (issued (boot s) r) <= 1)%nat).
Proof.
  split.
  - intros k. cbv zeta. rewrite list_folder_recursive_fuel by lia.
    split; [vm_compute; reflexivity|]. split; [vm_compute; reflexivity|].
    split; [|split; [reflexivity|discriminate]].
    unfold fixture. simpl. apply list_elem_of_further, list_elem_of_here.
  - intros s folderId maxDepth mimeType k.
    by apply filtered_listing_is_flat.
Qed.

(** C4, at the input where the code departs from it: the MIME-type clause
    is part of the request that finds the folders, and a folder never
    satisfies it unless the filter is the folder type itself.  On the
    fixture, with the filter [text/plain], the root's listing is empty,
    folder A is not entered, and x.txt, a [text/plain] leaf under A, is not
    in the output.  On every store and for every such filter the output
    holds direct children of the start folder only, and at most one request
    is sent. *)
Theorem mime_filter_hides_folders :
  (forall k,
      let r := list_folder_recursive store_drive "root" 5 true true
                 (Some "text/plain") (enough 5 + k) (boot fixture) in
      items_of r = []
      /\ expanded (issued (boot fixture) r) = ["root"]
      /\ (fileX ∈ entries fixture /\ file_parents fileX = ["A"]
          /\ file_mimeType fileX = "text/plain"))
  /\ (forall (s : Store) folderId maxDepth includeFolders mt k,
        truthy mt = true ->
        mt <> FOLDER_MIME ->
        let r := list_folder_recursive store_drive folderId maxDepth true
                   includeFolders (Some mt) (enough maxDepth + k) (boot s) in
        Forall (direct_leaf folderId) (items_of r)
        /\ (length (issued (boot s) r) <= 1)%nat).
Proof.
  split.
  - intros k. cbv zeta. rewrite list_folder_recursive_fuel by lia.
    split; [vm_compute; reflexivity|]. split; [vm_compute; reflexivity|].
    split; [|split; reflexivity].
    unfold fixture. simpl. apply list_elem_of_further, list_elem_of_here.
  - intros s folderId maxDepth includeFolders mt k Htruthy Hmt.
    apply filtered_listing_is_flat. unfold folders_filtered.
    rewrite Htruthy. apply String.eqb_neq in Hmt. rewrite Hmt.
    by destruct includeFolders.
Qed.

(** C3, as the code has it: the leaf x.txt is not in the tree, but the empty
    folder B is: it is a child of A, so A does carry a [children] field,
    which holds B; B itself has none. *)
Theorem empty_folder_is_listed_as_child :
  forall k,
    fst (get_folder_tree store_drive "root" 2 false (enough 2 + k)
           (boot fixture))
    = Ok (mkTreeResponse
            (mkTreeRoot "root" "My Drive"
               (value [mkNode "A" "A" "folder" None
                         (Some [mkNode "B" "B" "folder" None None])]))).
Proof.
  intros k. rewrite get_folder_tree_fuel by lia. vm_compute. reflexivity.
Qed.

(** The tree claimed, with A carrying no [children], is not the one
    returned. *)
Lemma folder_A_has_children :
  fst (get_folder_tree store_drive "root" 2 false (enough 2) (boot fixture))
  <> Ok (mkTreeResponse
           (mkTreeRoot "root" "My Drive"
              (value [mkNode "A" "A" "folder" None None]))).
Proof. vm_compute. discriminate. Qed.

(** C8, as the code has it: with [maxDepth = 0] no list request is sent
    (the only request is the one for the name of a root other than ['root'],
    and if that fails so does the handler), and the root comes back with its
    id, its name and a [children] property that is there and holds [null]:
    [buildTree] returns [null] and the handler stores it under [children]
    as it is, so the serialised root has ["children": null]. *)
Theorem max_depth_zero_root_children_null {St} (drive : Drive St)
    folderId includeFiles k (m : Machine St) :
  let r := get_folder_tree drive folderId 0 includeFiles (enough 0 + k) m in
  fst r
  = (if String.eqb folderId "root"
     then Ok (mkTreeResponse (mkTreeRoot folderId "My Drive" null))
     else match files_get drive folderId (backend m) with
          | inr f => Ok (mkTreeResponse (mkTreeRoot folderId (file_name f) null))
          | inl e => Throw e
          end)
  /\ backend (snd r) = backend m
  /\ issued m r = (if String.eqb folderId "root" then [] else [CGet folderId])
  /\ (forall name,
        json_get "children" (root_json (mkTreeRoot folderId name null))
        = Some JNull).
Proof.
  cbv zeta. rewrite get_folder_tree_fuel by lia.
  assert (Hrun :
    get_folder_tree drive folderId 0 includeFiles (enough 0) m
    = if String.eqb folderId "root"
      then (Ok (mkTreeResponse (mkTreeRoot folderId "My Drive" null)), m)
      else match files_get drive folderId (backend m) with
           | inr f =>
               (Ok (mkTreeResponse (mkTreeRoot folderId (file_name f) null)),
                log_call (CGet folderId) m)
           | inl e =>
               (Throw e,
                mkMachine (backend m) (calls m ++ [CGet folderId])
                          (console m ++ [("Drive operation failed:", e)])
                          (allItems m) (visited m))
           end).
  { unfold get_folder_tree.
    destruct (String.eqb folderId "root") eqn:Hroot; cbn [negb].
    - by apply handle_ok.
    - destruct (files_get drive folderId (backend m)) as [e|f] eqn:Hget.
      + rewrite (handle_throw _ m e (log_call (CGet folderId) m));
          [reflexivity|].
        rewrite bind_run, bind_run. unfold drive_files_get.
        by rewrite Hget.
      + apply handle_ok. rewrite bind_run, bind_run. unfold drive_files_get.
        by rewrite Hget. }
  rewrite Hrun. unfold issued.
  destruct (String.eqb folderId "root").
  - simpl. by rewrite drop_all.
  - destruct (files_get drive folderId (backend m)) as [e|f]; simpl;
      by rewrite drop_app_length.
Qed.

(** The root returned for [maxDepth = 0] does carry a [children] field. *)
Lemma root_carries_children_field :
  ~ (exists resp,
        fst (get_folder_tree store_drive "root" 0 false (enough 0)
               (boot fixture)) = Ok resp
        /\ has_field "children" (root_json (resp_root resp)) = false).
Proof.
  intros (resp & Hrun & Hfield). vm_compute in Hrun.
  injection Hrun as <-. vm_compute in Hfield. discriminate.
Qed.

(** ** The theorems at concrete inputs *)

Lemma witness_slashes_resolve_to_root :
  path_folders "//" = []
  /\ get_folder_id_for_path store_drive "//" true (boot fixture)
     = (Ok (mkPathResponse "//" "root"), boot fixture).
Proof.
  split; [reflexivity|].
  apply (proj1 (empty_path_is_root store_drive)). reflexivity.
Defined.

Lemma witness_path_A_B_lists_only :
  segments_exist store_drive (backend (boot fixture)) "root"
                 (path_folders "A/B")
  /\ get_folder_id_for_path store_drive "A/B" true (boot fixture)
     = get_folder_id_for_path store_drive "A/B" false (boot fixture).
Proof.
  assert (H : segments_exist store_drive (backend (boot fixture)) "root"
                             (path_folders "A/B")).
  { exists folderA, []. split; [reflexivity|].
    exists folderB, []. split; [reflexivity|]. exact I. }
  split; [exact H|].
  apply (existing_path_only_lists store_drive "A/B" (boot fixture) H true).
Defined.

Lemma witness_refused_folder_A :
  CList (tree_query false "A")
    ∈ issued (boot guarded)
             (get_folder_tree store_drive "root" 3 false (enough 3 + 0)
                (boot guarded))
  /\ call_failure store_drive guarded (CList (tree_query false "A"))
     = Some (mkError "The user does not have sufficient permissions")
  /\ fst (get_folder_tree store_drive "root" 3 false (enough 3 + 0)
            (boot guarded))
     = Throw (mkError "The user does not have sufficient permissions")
  /\ listing (items_of (list_folder_recursive store_drive "root" 3 true true
                          None (enough 3 + 0) (boot guarded)))
     = [("A", 0); ("y.txt", 0)].
Proof.
  assert (Hin : CList (tree_query false "A")
                  ∈ issued (boot guarded)
                      (get_folder_tree store_drive "root" 3 false
                         (enough 3 + 0) (boot guarded))).
  { vm_compute. apply list_elem_of_further, list_elem_of_here. }
  assert (Hfail : call_failure store_drive (backend (boot guarded))
                    (CList (tree_query false "A"))
                  = Some (mkError
                            "The user does not have sufficient permissions")).
  { reflexivity. }
  split; [exact Hin|]. split; [exact Hfail|]. split.
  - exact (proj2 (lister_lenient_tree_strict store_drive) "root" 3 false 0%nat
                 (boot guarded) _ _ Hin Hfail).
  - vm_compute. reflexivity.
Defined.

Lemma witness_text_plain_filter :
  truthy "text/plain" = true
  /\ "text/plain" <> FOLDER_MIME
  /\ Forall (direct_leaf "root")
            (items_of (list_folder_recursive store_drive "root" 5 true true
                         (Some "text/plain") (enough 5 + 0) (boot fixture))).
Proof.
  assert (H1 : truthy "text/plain" = true) by reflexivity.
  assert (H2 : "text/plain" <> FOLDER_MIME) by discriminate.
  split; [exact H1|]. split; [exact H2|].
  exact (proj1 (proj2 mime_filter_hides_folders fixture "root" 5 true
                      "text/plain" 0%nat H1 H2)).
Defined.

(** * Further properties of the handlers *)

(** ** The path resolver: a missing segment *)

Section ResolverMissing.
Context {St : Type} (drive : Drive St).

Lemma resolve_loop_missing path pre seg post :
  forall start cur (m : Machine St),
    resolves_to drive (backend m) start pre cur ->
    answers_nothing drive (backend m) seg cur ->
    exists ps,
      for_of_acc (pre ++ seg :: post) start (resolve_step drive path false) m
      = (Throw (not_found seg path), with_calls m (CList <$> ps))
      /\ length ps = Datatypes.S (length pre).
Proof.
  induction pre as [|folderName rest IH]; intros start cur m Hwalk Hnone.
  - simpl in Hwalk. subst cur.
    destruct Hnone as (response & Hlist & Hfiles).
    exists [folder_query seg start]. split; [|done].
    simpl app. rewrite for_of_acc_cons, bind_run, resolve_step_run, Hlist.
    by destruct Hfiles as [-> | ->].
  - destruct Hwalk as (f & fs & Hlist & Hrest).
    destruct (IH (file_id f) cur
                 (log_call (CList (folder_query folderName start)) m)
                 Hrest Hnone) as (ps & Hrun & Hlen).
    exists (folder_query folderName start :: ps). split; [|simpl; lia].
    simpl app. rewrite for_of_acc_cons, bind_run, resolve_step_run, Hlist.
    simpl. rewrite Hrun. f_equal.
    unfold with_calls, log_call. simpl. by rewrite <- app_assoc.
Qed.

(** X1: without [createIfNotExists], when the segments before [seg] resolve
    and the listing for [seg] answers with no file, the handler throws
    [Folder not found: seg in path ...] with the whole requested path; it
    has sent one list request per segment up to and including [seg], none
    for the segments after it, and the backend is as it was. *)
Theorem missing_segment_is_reported path pre seg post cur (m : Machine St) :
  path_folders path = pre ++ seg :: post ->
  resolves_to drive (backend m) "root" pre cur ->
  answers_nothing drive (backend m) seg cur ->
  let r := get_folder_id_for_path drive path false m in
  fst r = Throw (not_found seg path)
  /\ backend (snd r) = backend m
  /\ length (issued m r) = Datatypes.S (length pre)
  /\ forallb is_list_call (issued m r) = true.
Proof.
  intros Hpath Hwalk Hnone. cbv zeta.
  rewrite get_folder_id_for_path_run, Hpath.
  destruct (resolve_loop_missing path pre seg post "root" cur m Hwalk Hnone)
    as (ps & -> & Hlen).
  unfold issued. simpl. rewrite drop_app_length, length_fmap.
  repeat split; [done|]. clear. induction ps; simpl; auto.
Qed.

End ResolverMissing.

(** ** The path resolver on the storage backend: what the id stands for *)

Section ResolverSound.

Lemma leads_extends s s' cur folders x :
  extends s s' -> leads s cur folders x -> leads s' cur folders x.
Proof.
  intros [_ [extra Hext]]. revert cur.
  induction folders as [|folderName rest IH]; intros cur; simpl; [done|].
  intros (f & Hin & Hrest). exists f. split.
  - rewrite Hext. apply elem_of_app. by left.
  - destruct Hrest as (? & ? & ? & ? & Hrest). repeat split; try done.
    by apply IH.
Qed.

(** Every file the store lists is one of its files and satisfies the
    query. *)
Lemma store_list_sound p s response :
  store_list p s = inr response ->
  Forall (fun f => f ∈ entries s /\ satisfies (q p) f = true)
         (default [] (files response)).
Proof.
  unfold store_list. destruct (refused _ _); [done|]. intros [= <-]. simpl.
  apply Forall_take, arrange_Forall, Forall_forall. intros f Hf.
  apply list_elem_of_In, filter_In in Hf as [Hin Hsat].
  split; [by apply list_elem_of_In|done].
Qed.

Lemma folder_query_sound folderName cur s f fs :
  store_list (folder_query folderName cur) s
  = inr (mkListResponse (Some (f :: fs))) ->
  f ∈ entries s /\ file_name f = folderName /\ file_mimeType f = FOLDER_MIME
  /\ file_trashed f = false /\ cur ∈ file_parents f.
Proof.
  intros Hlist. apply store_list_sound in Hlist. simpl in Hlist.
  apply Forall_cons in Hlist as [[Hin Hsat] _]. split; [done|].
  unfold satisfies in Hsat. simpl in Hsat.
  repeat (apply andb_true_iff in Hsat as [? Hsat]).
  repeat split.
  - by apply String.eqb_eq.
  - by apply String.eqb_eq.
  - by apply negb_true_iff.
  - match goal with
    | H : bool_decide _ = true |- _ => by apply bool_decide_eq_true in H
    end.
Qed.

Lemma resolve_loop_leads path b folders :
  forall cur (m m' : Machine Store) x,
    for_of_acc folders cur (resolve_step store_drive path b) m = (Ok x, m') ->
    extends (backend m) (backend m')
    /\ leads (backend m') cur folders x.
Proof.
  induction folders as [|folderName rest IH]; intros cur m m' x Hrun.
  - injection Hrun as <- <-. split; [apply extends_refl|done].
  - rewrite for_of_acc_cons, bind_run, resolve_step_run in Hrun.
    destruct (files_list store_drive (folder_query folderName cur) (backend m))
      as [e|response] eqn:Hlist; [done|].
    destruct response as [[[|f fs]|]].
    + (* created *)
      simpl files in Hrun. destruct b; [|done].
      unfold drive_files_create in Hrun. simpl files_create in Hrun.
      simpl backend in Hrun. unfold store_create in Hrun.
      simpl body_parents in Hrun.
      destruct (refused (backend m) [cur]); [done|]. simpl in Hrun.
      apply IH in Hrun as [Hext Hleads]. simpl backend in Hext.
      set (new := mkFile (fresh_id (backend m)) folderName FOLDER_MIME None ""
                         [cur] false) in *.
      assert (Hgrow : extends (backend m)
                        (mkStore (entries (backend m) ++ [new])
                                 (denied (backend m)))).
      { split; [done|]. by exists [new]. }
      split; [exact (extends_trans _ _ _ Hgrow Hext)|].
      exists new. split.
      { destruct Hext as [_ [extra ->]]. simpl.
        apply elem_of_app. left. apply elem_of_app. right.
        apply list_elem_of_here. }
      repeat split; try done. apply list_elem_of_here.
    + (* found *)
      simpl in Hrun. apply IH in Hrun as [Hext Hleads]. simpl backend in Hext.
      split; [done|].
      apply folder_query_sound in Hlist as (Hin & Hname & Hmime & Htr & Hpar).
      exists f. split.
      { destruct Hext as [_ [extra ->]]. apply elem_of_app. by left. }
      done.
    + (* the store always answers with a list *)
      simpl in Hlist. unfold store_list in Hlist.
      destruct (refused _ _); done.
Qed.

(** On a store that matches names, types and parents as the clauses say,
    the folder id answered is where the segments lead. *)
Lemma store_resolved_id_leads path b (m m' : Machine Store) r :
  get_folder_id_for_path store_drive path b m = (Ok r, m') ->
  leads (backend m') "root" (path_folders path) (resp_folderId r)
  /\ extends (backend m) (backend m')
  /\ resp_path r = path.
Proof.
  intros Hrun. rewrite get_folder_id_for_path_run in Hrun.
  destruct (for_of_acc _ _ _ m) as [[x|e|] m1] eqn:Hloop; [|done|done].
  injection Hrun as <- <-.
  apply resolve_loop_leads in Hloop as [Hext Hleads]. done.
Qed.



End ResolverSound.

(** ** The recursive lister: how the listing is laid out *)

Section ListerLayout.
Context {St : Type} (drive : Drive St).
Context (maxDepth : Z) (includeFiles includeFolders : bool)
        (mimeType : option string).

Local Notation "'trav'" :=
  (traverseFolder drive maxDepth includeFiles includeFolders mimeType).

Lemma traverse_entry_run recur depth path file (n : Machine St) :
  traverse_entry recur depth path file n
  = (if String.eqb (file_mimeType file) FOLDER_MIME
     then recur (file_id file) (depth + 1) (child_path path file)
     else ret tt)
      (mkMachine (backend n) (calls n) (console n)
                 (allItems n ++ [mkItem file (child_path path file) depth])
                 (visited n)).
Proof. reflexivity. Qed.

Lemma laid_out_depth depth path it its :
  laid_out depth path (it :: its) -> item_depth it = depth.
Proof. inversion 1; subst. reflexivity. Qed.



End ListerLayout.

Lemma laid_out_inv depth path it its :
  laid_out depth path (it :: its) ->
  exists below rest,
    its = below ++ rest
    /\ laid_out (depth + 1) (item_path it) below
    /\ (file_mimeType (item_file it) <> FOLDER_MIME -> below = [])
    /\ laid_out depth path rest.
Proof. inversion 1; subst. by eexists _, _. Qed.

(** The same files listed level by level are not laid out in pre-order. *)
Example level_order_is_not_laid_out :
  ~ laid_out 0 "" [mkItem folderA "A" 0; mkItem fileY "y.txt" 0;
                   mkItem fileX "A/x.txt" 1; mkItem folderB "A/B" 1].
Proof.
  intros H. apply laid_out_inv in H as (below & rest & Heq & Hb & _ & Hr).
  destruct below as [|b below'].
  - simpl in Heq. subst rest.
    apply laid_out_inv in Hr as (below & rest & Heq & _ & Hleaf & Hr).
    rewrite Hleaf in Heq by discriminate. simpl in Heq. subst rest.
    apply laid_out_depth in Hr. discriminate.
  - injection Heq as <- _. apply laid_out_depth in Hb. discriminate.
Qed.


(** ** The tree builder: the shape of the tree *)

Section TreeShape.
Context {St : Type} (drive : Drive St).
Context (maxDepth : Z) (includeFiles : bool).

Local Notation "'build'" := (buildTree drive maxDepth includeFiles).

(** What holds of the variable of a loop before it, and again after each
    round that runs through, holds of it at the end. *)
Lemma for_of_acc_value {A B} (Inv : B -> Prop) (l : list A)
    (body : B -> A -> M St B) :
  (forall acc x m,
      Inv acc ->
      match fst (body acc x m) with Ok acc' => Inv acc' | _ => True end) ->
  forall acc m,
    Inv acc ->
    match fst (for_of_acc l acc body m) with Ok r => Inv r | _ => True end.
Proof.
  intros Hbody. induction l as [|x l IH]; intros acc m Hacc; simpl; [done|].
  rewrite bind_run. specialize (Hbody acc x m Hacc).
  destruct (body acc x m) as [[acc'|e|] m']; simpl in *; [|done|done].
  by apply IH.
Qed.

Lemma list_max_bound (l : list nat) (b : nat) :
  Forall (fun x => (x <= b)%nat) l -> (list_max l <= b)%nat.
Proof. intros H. by apply list_max_le. Qed.

Lemma attach_children_fits depth file children :
  depth < maxDepth ->
  String.eqb (node_type (tree_item file)) "folder" = true ->
  match children with
  | value l => Forall (fits maxDepth (depth + 1)) l
  | null => True
  end ->
  fits maxDepth depth (attach_children (tree_item file) children).
Proof.
  intros Hd Hfolder Hch. unfold tree_item in *. simpl in Hfolder.
  destruct children as [|[|c cs]]; simpl.
  - split; [simpl; by rewrite Hfolder|simpl; lia].
  - split; [simpl; by rewrite Hfolder|simpl; lia].
  - split.
    + simpl. rewrite Hfolder. simpl.
      apply Forall_cons in Hch as [[Hc _] Hcs]. rewrite Hc. simpl.
      apply forallb_forall. intros n Hn. apply list_elem_of_In in Hn.
      rewrite Forall_forall in Hcs. by destruct (Hcs n Hn).
    + assert (Hmax : (list_max (List.map levels (c :: cs))
                      <= Z.to_nat (maxDepth - (depth + 1)))%nat).
      { apply list_max_bound. apply Forall_forall. intros x Hx.
        apply list_elem_of_In, in_map_iff in Hx as (n & <- & Hn).
        apply list_elem_of_In in Hn. rewrite Forall_forall in Hch.
        destruct (Hch n Hn) as [_ Hlev]. lia. }
      cbn [levels]. fold levels. lia.
Qed.

Lemma buildTree_fits fuel :
  forall parentId depth (m : Machine St),
    match fst (build fuel parentId depth m) with
    | Ok (value items) => Forall (fits maxDepth depth) items
    | _ => True
    end.
Proof.
  induction fuel as [|fuel' IH]; intros parentId depth m; [done|].
  rewrite buildTree_run.
  destruct (maxDepth <=? depth) eqn:Hd; [done|]. apply Z.leb_gt in Hd.
  rewrite bind_run.
  destruct (drive_files_list drive _ m) as [[response|e|] m1]; [|done|done].
  rewrite bind_run.
  pose proof (for_of_acc_value (Forall (fits maxDepth depth))
                (default [] (files response))
                (tree_entry (build fuel') depth)) as Hloop.
  match type of Hloop with
  | ?P -> _ => assert (Hbody : P)
  end.
  { intros acc file n Hacc. unfold tree_entry. rewrite bind_run.
    destruct (String.eqb (node_type (tree_item file)) "folder") eqn:Hfolder.
    - rewrite bind_run. specialize (IH (file_id file) (depth + 1) n).
      destruct (build fuel' _ _ n) as [[children|e|] n']; simpl in *;
        [|done|done].
      apply Forall_app. split; [done|]. apply Forall_singleton.
      by apply attach_children_fits.
    - simpl. apply Forall_app. split; [done|]. apply Forall_singleton.
      unfold tree_item in *. simpl in Hfolder. split.
      + simpl. destruct (String.eqb (file_mimeType file) FOLDER_MIME); done.
      + simpl. lia. }
  specialize (Hloop Hbody [] m1 (Forall_nil_2 _)).
  destruct (for_of_acc _ _ _ m1) as [[items|e|] m2]; simpl in *; done.
Qed.

Lemma get_folder_tree_fits folderId fuel (m : Machine St) :
  Forall (fits maxDepth 0)
         (tree_of (fst (get_folder_tree drive folderId maxDepth includeFiles
                          fuel m))).
Proof.
  unfold get_folder_tree, handleDriveOperation, try_catch.
  rewrite bind_run.
  match goal with
  | |- context [(if ?c then ?a else ?b) m] =>
      destruct ((if c then a else b) m) as [[rootName|e|] m1]
  end; simpl; try done.
  rewrite bind_run. pose proof (buildTree_fits fuel folderId 0 m1) as Hfit.
  destruct (build fuel folderId 0 m1) as [[[|items]|e|] m2]; simpl in *; done.
Qed.

Lemma buildTree_null fuel parentId depth (m : Machine St) :
  match fst (build fuel parentId depth m) with
  | Ok null => maxDepth <= depth
  | Ok (value _) => depth < maxDepth
  | _ => True
  end.
Proof.
  destruct fuel as [|fuel']; [done|]. rewrite buildTree_run.
  destruct (maxDepth <=? depth) eqn:Hd.
  { simpl. by apply Z.leb_le. }
  apply Z.leb_gt in Hd. rewrite bind_run.
  destruct (drive_files_list drive _ m) as [[response|e|] m1]; [|done|done].
  rewrite bind_run.
  destruct (for_of_acc _ _ _ m1) as [[items|e|] m2]; simpl; done.
Qed.

(** X5: in the response of [get_folder_tree] every node below the root is
    of type [file] or [folder]; only folder nodes carry [children], and a
    [children] array that is there is never empty (a folder whose listing
    is empty, or that lies at the depth bound, has no such property).  The
    root is made differently: it is the folder asked for, has no type, and
    always carries [children], which is [null] when [maxDepth] is not
    positive and otherwise the array of the nodes, empty or not. *)
Theorem tree_nodes_are_well_formed folderId fuel (m : Machine St) :
  match fst (get_folder_tree drive folderId maxDepth includeFiles fuel m) with
  | Ok resp =>
      root_id (resp_root resp) = folderId
      /\ has_field "type" (root_json (resp_root resp)) = false
      /\ has_field "children" (root_json (resp_root resp)) = true
      /\ match root_children (resp_root resp) with
         | null => maxDepth <= 0
         | value nodes =>
             0 < maxDepth /\ Forall (fun n => node_wf n = true) nodes
         end
  | _ => True
  end.
Proof.
  pose proof (get_folder_tree_fits folderId fuel m) as Hfits.
  revert Hfits.
  unfold get_folder_tree, handleDriveOperation, try_catch.
  rewrite bind_run.
  match goal with
  | |- context [(if ?c then ?a else ?b) m] =>
      destruct ((if c then a else b) m) as [[rootName|e|] m1]
  end; simpl; try done.
  rewrite bind_run. pose proof (buildTree_null fuel folderId 0 m1) as Hnull.
  destruct (build fuel folderId 0 m1) as [[[|items]|e|] m2]; simpl in *;
    try done.
  intros Hfits. repeat split; try done.
  eapply Forall_impl; [exact Hfits|]. by intros n [].
Qed.

End TreeShape.

Lemma reached_depth_bound (depth : Z) (maxDepth : Q) :
  reached depth maxDepth = (depth_bound maxDepth <=? depth).
Proof.
  unfold reached, depth_bound.
  destruct (Z.leb_spec (Qceiling maxDepth) depth) as [H|H].
  - apply Qle_bool_iff. eapply Qle_trans; [apply Qle_ceiling|].
    rewrite <- Zle_Qle. exact H.
  - apply not_true_is_false. intros Hle. apply Qle_bool_iff in Hle.
    apply Qceiling_resp_le in Hle. rewrite Qceiling_Z in Hle. lia.
Qed.

(** X6: the tree below the root has at most [maxDepth] levels when
    [maxDepth] is an integer: no chain of nested [children] is longer,
    whatever the backend holds.  A [maxDepth] that is no integer bounds the
    integral [depth] as its ceiling does, and the tree then has at most
    that many levels, which is fewer than [maxDepth + 1] (and can be more
    than [maxDepth]). *)
Theorem tree_has_at_most_max_depth_levels {St} (drive : Drive St) folderId
    includeFiles fuel (m : Machine St) :
  (forall maxDepth : Z,
      Forall (fun n => Z.of_nat (levels n) <= maxDepth)
             (tree_of (fst (get_folder_tree drive folderId maxDepth
                              includeFiles fuel m))))
  /\ (forall (number : Q) (depth : Z),
         reached depth number = (depth_bound number <=? depth))
  /\ (forall number : Q,
         Forall (fun n => Z.of_nat (levels n) <= depth_bound number
                          /\ (inject_Z (Z.of_nat (levels n)) < number + 1)%Q)
                (tree_of (fst (get_folder_tree drive folderId
                                 (depth_bound number) includeFiles fuel m)))).
Proof.
  assert (Hint : forall maxDepth : Z,
             Forall (fun n => Z.of_nat (levels n) <= maxDepth)
                    (tree_of (fst (get_folder_tree drive folderId maxDepth
                                     includeFiles fuel m)))).
  { intros maxDepth. eapply Forall_impl; [apply get_folder_tree_fits|].
    intros n [_ Hlev]. lia. }
  split; [exact Hint|]. split; [intros; apply reached_depth_bound|].
  intros number. eapply Forall_impl; [apply Hint|].
  intros n Hlev. split; [exact Hlev|].
  eapply Qle_lt_trans; [rewrite <- Zle_Qle; exact Hlev|].
  unfold depth_bound.
  replace (Qceiling number) with ((Qceiling number - 1) + 1) at 1 by lia.
  rewrite inject_Z_plus. apply Qplus_lt_l, Qceiling_lt.
Qed.

(** ** The recursive lister on the storage backend: what is listed *)

Section ListerSound.
Context (maxDepth : Z) (includeFiles includeFolders : bool)
        (mimeType : option string).

Local Notation "'trav'" :=
  (traverseFolder store_drive maxDepth includeFiles includeFolders mimeType).
Local Notation "'tclauses'" :=
  (traverse_clauses includeFiles includeFolders mimeType).

Lemma preserves_for_of_Forall {St A} (I : Machine St -> Prop) (l : list A)
    (body : A -> M St unit) :
  Forall (fun x => preserves I (body x)) l -> preserves I (for_of l body).
Proof.
  induction 1 as [|x l Hx Hl IH]; simpl.
  - apply preserves_ret.
  - apply preserves_bind; [exact Hx|]. intros _. exact IH.
Qed.

Lemma traverseFolder_store_items (P : File -> Prop) (s : Store) :
  (forall parentId f,
      f ∈ entries s -> satisfies (tclauses parentId) f = true -> P f) ->
  forall fuel parentId depth path,
    preserves (fun m => backend m = s
                        /\ Forall (fun it => P (item_file it)) (allItems m))
              (trav fuel parentId depth path).
Proof.
  intros HP. induction fuel as [|fuel' IH];
    intros parentId depth path m [Hb Hitems]; [done|].
  rewrite traverseFolder_run.
  destruct ((maxDepth <=? depth) || bool_decide (parentId ∈ visited m));
    [done|].
  unfold try_catch. rewrite bind_run. unfold drive_files_list.
  simpl files_list. simpl backend.
  destruct (store_list _ (backend m)) as [e|response] eqn:Hlist; [done|].
  rewrite Hb in Hlist.
  apply store_list_sound in Hlist. unfold traverse_query in Hlist.
  cbn [q] in Hlist. cbn [of_result].
  set (m0 := log_call _ _).
  pose proof (preserves_for_of_Forall
                (fun m => backend m = s
                          /\ Forall (fun it => P (item_file it)) (allItems m))
                (default [] (files response))
                (traverse_entry (trav fuel') depth path)) as Hloop.
  match type of Hloop with
  | ?Q -> _ => assert (Hbody : Q)
  end.
  { eapply Forall_impl; [exact Hlist|]. intros f [Hin Hsat].
    unfold traverse_entry. apply preserves_bind.
    - intros n [Hbn Hn]. split; [done|]. simpl.
      apply Forall_app. split; [done|]. apply Forall_singleton. simpl.
      by eapply HP.
    - intros _. destruct (String.eqb _ _); [apply IH|apply preserves_ret]. }
  specialize (Hloop Hbody m0 (conj Hb Hitems)).
  destruct (for_of _ _ m0) as [[[]|e|] m']; exact Hloop.
Qed.

Lemma list_folder_recursive_store_items (P : File -> Prop) (s : Store)
    folderId k :
  (forall parentId f,
      f ∈ entries s -> satisfies (tclauses parentId) f = true -> P f) ->
  Forall (fun it => P (item_file it))
         (items_of (list_folder_recursive store_drive folderId maxDepth
                      includeFiles includeFolders mimeType
                      (enough maxDepth + k) (boot s))).
Proof.
  intros HP. rewrite list_folder_recursive_run by lia.
  unfold items_of. cbn [fst resp_items].
  apply (traverseFolder_store_items P s HP (enough maxDepth + k) folderId 0 ""
           (snd (fresh_locals (boot s)))).
  split; [done|]. apply Forall_nil_2.
Qed.

(** On a store that matches the clauses, every entry listed is a file of
    the store that is not in the trash. *)
Lemma store_listing_live (s : Store) folderId k :
  Forall (fun it => item_file it ∈ entries s
                    /\ file_trashed (item_file it) = false)
         (items_of (list_folder_recursive store_drive folderId maxDepth
                      includeFiles includeFolders mimeType
                      (enough maxDepth + k) (boot s))).
Proof.
  apply (list_folder_recursive_store_items
           (fun f => f ∈ entries s /\ file_trashed f = false)).
  intros parentId f Hin Hsat. split; [done|].
  assert (Hc : TrashedIsFalse ∈ tclauses parentId)
    by (unfold traverse_clauses; set_solver).
  apply (satisfies_clause _ f _ Hsat) in Hc. by apply negb_true_iff in Hc.
Qed.

End ListerSound.

(** On a store that matches the clauses, the listing without files holds
    folders only. *)
Lemma store_listing_folders_only (s : Store) folderId maxDepth includeFolders
    mimeType k :
  Forall (fun it => file_mimeType (item_file it) = FOLDER_MIME)
         (items_of (list_folder_recursive store_drive folderId maxDepth
                      false includeFolders mimeType
                      (enough maxDepth + k) (boot s))).
Proof.
  apply (list_folder_recursive_store_items maxDepth false includeFolders
           mimeType (fun f => file_mimeType f = FOLDER_MIME)).
  intros parentId f Hin Hsat.
  assert (Hc : MimeTypeEq FOLDER_MIME
                 ∈ traverse_clauses false includeFolders mimeType parentId)
    by (unfold traverse_clauses; set_solver).
  apply (satisfies_clause _ f _ Hsat) in Hc. by apply String.eqb_eq in Hc.
Qed.

(** ** The further tools *)

Section MoreTools.
Context {St : Type} (drive : DriveMore St).
Implicit Types m : Machine (Logged St).

Lemma ask_read_run {A} r (answer : St -> Error + A) m :
  ask_read r answer m
  = (of_result (answer (store (backend m))),
     after_requests [r] (store (backend m)) m).
Proof. reflexivity. Qed.

Lemma ask_run {A} r (answer : St -> (Error + A) * St) m :
  ask r answer m
  = (of_result (fst (answer (store (backend m)))),
     after_requests [r] (snd (answer (store (backend m)))) m).
Proof. unfold ask. by destruct (answer _). Qed.

Lemma after_requests_twice rs1 rs2 (s1 s2 : St) m :
  after_requests rs2 s2 (after_requests rs1 s1 m)
  = after_requests (rs1 ++ rs2) s2 m.
Proof. unfold after_requests, set_backend. simpl. by rewrite <- app_assoc. Qed.

Lemma sent_after_requests {A} (o : Outcome A) rs (s : St) m :
  sent m (o, after_requests rs s m) = rs.
Proof. unfold sent. simpl. by rewrite drop_app_length. Qed.

Lemma handle_run {S' A} (op : M S' A) (m : Machine S') :
  handleDriveOperation op m
  = match op m with
    | (Throw e, m') =>
        (Throw e, mkMachine (backend m') (calls m')
                            (console m' ++ [("Drive operation failed:", e)])
                            (allItems m') (visited m'))
    | r => r
    end.
Proof.
  unfold handleDriveOperation, try_catch.
  by destruct (op m) as [[a|e|] m'].
Qed.

(** The requests sent and the backend state do not depend on what the
    handler wrapper writes to the console. *)
Lemma sent_handle {A} (op : M (Logged St) A) m :
  sent m (handleDriveOperation op m) = sent m (op m)
  /\ backend (snd (handleDriveOperation op m)) = backend (snd (op m)).
Proof. rewrite handle_run. by destruct (op m) as [[a|e|] m']. Qed.

(** *** download_file *)

Lemma own_property_truthy key v :
  own_property (to_lower key) formatMap = Some v -> truthy key = true.
Proof. destruct key; [discriminate|done]. Qed.

(** X9: [download_file] matches the names of its format table without
    regard to letter case and exports with the MIME type the table gives;
    an [exportFormat] that is no name of the table (and neither of the two
    inherited names) is taken as the MIME type itself, as it was written;
    the name [constructor], in any letter case, yields no string at all but
    what the lookup inherits. *)
Theorem download_export_format_names mimeType ef :
  (forall v,
      own_property (to_lower ef) formatMap = Some v ->
      download_export_mime mimeType (Some ef) = MimeStr v)
  /\ (truthy ef = true ->
      formatMap_get (to_lower ef) = MimeUndefined ->
      download_export_mime mimeType (Some ef) = MimeStr ef)
  /\ (to_lower ef = "constructor" ->
      download_export_mime mimeType (Some ef) = ObjectFunction).
Proof.
  unfold download_export_mime, given. split; [|split].
  - intros v Hv. rewrite (own_property_truthy _ _ Hv).
    unfold formatMap_get. by rewrite Hv.
  - intros -> ->. done.
  - intros Hef. assert (Ht : truthy ef = true) by (by destruct ef).
    rewrite Ht, Hef. reflexivity.
Qed.

(** X10: without a (truthy) [exportFormat], [download_file] exports a
    Workspace file as [text/plain], [text/csv] or [image/png], whatever its
    MIME type is. *)
Theorem download_default_export_types mimeType ef :
  given ef = None ->
  download_export_mime mimeType ef = MimeStr "text/plain"
  \/ download_export_mime mimeType ef = MimeStr "text/csv"
  \/ download_export_mime mimeType ef = MimeStr "image/png".
Proof.
  intros Hef. unfold download_export_mime. rewrite Hef.
  repeat (destruct (includes _ _); [tauto|]). tauto.
Qed.

(** X11: [download_file] reads the metadata first and, if that is answered,
    sends exactly one more request: an export for a Workspace file (never
    a download of its content) and a download of the content for any other
    file (never an export, [exportFormat] being ignored); the response type
    asked for is [arraybuffer] unless the format is [text].  The backend is
    left as it was. *)
Theorem download_file_requests fileId format ef m :
  let r := download_file drive fileId format ef m in
  sent m r
  = RGetMeta fileId
    :: match files_get (more_core drive) fileId (store (backend m)) with
       | inl _ => []
       | inr meta =>
           if String.prefix WORKSPACE_PREFIX (file_mimeType meta)
           then [RExport fileId
                         (download_export_mime (file_mimeType meta) ef)
                         (download_response_type format)]
           else [RMedia fileId (download_response_type format)]
       end
  /\ store (backend (snd r)) = store (backend m).
Proof.
  cbv zeta. unfold download_file.
  destruct (sent_handle
              (meta ← get_meta drive fileId;
               if String.prefix WORKSPACE_PREFIX (file_mimeType meta) then
                 data ← export drive fileId
                          (download_export_mime (file_mimeType meta) ef)
                          (download_response_type format);
                 ret (mkDownloadResponse (file_name meta)
                        (download_content format
                           (download_response_type format) data)
                        (download_export_mime (file_mimeType meta) ef)
                        format (file_size meta))
               else
                 data ← get_media drive fileId (download_response_type format);
                 ret (mkDownloadResponse (file_name meta)
                        (download_content format
                           (download_response_type format) data)
                        (MimeStr (file_mimeType meta)) format
                        (file_size meta))) m) as [-> ->].
  rewrite bind_run. unfold get_meta. rewrite ask_read_run.
  destruct (files_get (more_core drive) fileId (store (backend m)))
    as [e|meta]; cbn [of_result].
  { by rewrite sent_after_requests. }
  destruct (String.prefix WORKSPACE_PREFIX (file_mimeType meta)).
  - rewrite bind_run. unfold export. rewrite ask_read_run.
    rewrite after_requests_twice.
    destruct (files_export drive _ _ _ _) as [e|data]; cbn [of_result];
      unfold ret; by rewrite sent_after_requests.
  - rewrite bind_run. unfold get_media. rewrite ask_read_run.
    rewrite after_requests_twice.
    destruct (files_get_media drive _ _ _) as [e|data]; cbn [of_result];
      unfold ret; by rewrite sent_after_requests.
Qed.

(** *** batch_download *)

Lemma batch_round_spec format ef arrays fileId m :
  exists arrays' m',
    batch_round drive format ef arrays fileId m = (Ok arrays', m')
    /\ store (backend m') = store (backend m)
    /\ if downloadable drive format ef (store (backend m)) fileId
       then got_fileId <$> fst arrays' = (got_fileId <$> fst arrays) ++ [fileId]
            /\ snd arrays' = snd arrays
       else fst arrays' = fst arrays
            /\ lost_fileId <$> snd arrays'
               = (lost_fileId <$> snd arrays) ++ [fileId].
Proof.
  unfold batch_round, try_catch, batch_fetch, downloadable.
  rewrite !bind_run. unfold get_meta. rewrite ask_read_run.
  destruct (files_get (more_core drive) fileId (store (backend m)))
    as [e|meta]; cbn [of_result].
  { eexists _, _. split; [reflexivity|]. split; [done|].
    split; [done|]. cbn [snd]. by rewrite fmap_app. }
  destruct (String.prefix WORKSPACE_PREFIX (file_mimeType meta)).
  - rewrite !bind_run. unfold export. rewrite ask_read_run.
    change (store (backend (after_requests ?rs ?s ?n))) with s.
    destruct (files_export drive _ _ _ _) as [e|data]; cbn [of_result].
    + eexists _, _. split; [reflexivity|]. split; [done|].
      split; [done|]. cbn [snd]. by rewrite fmap_app.
    + eexists _, _. split; [reflexivity|]. split; [done|].
      split; [|done]. cbn [fst]. by rewrite fmap_app.
  - rewrite !bind_run. unfold get_media. rewrite ask_read_run.
    change (store (backend (after_requests ?rs ?s ?n))) with s.
    destruct (files_get_media drive _ _ _) as [e|data]; cbn [of_result].
    + eexists _, _. split; [reflexivity|]. split; [done|].
      split; [done|]. cbn [snd]. by rewrite fmap_app.
    + eexists _, _. split; [reflexivity|]. split; [done|].
      split; [|done]. cbn [fst]. by rewrite fmap_app.
Qed.

Lemma batch_loop_spec format ef fileIds :
  forall arrays m,
    exists arrays' m',
      for_of_acc fileIds arrays (batch_round drive format ef) m
      = (Ok arrays', m')
      /\ store (backend m') = store (backend m)
      /\ got_fileId <$> fst arrays'
         = (got_fileId <$> fst arrays)
           ++ List.filter (downloadable drive format ef (store (backend m)))
                          fileIds
      /\ lost_fileId <$> snd arrays'
         = (lost_fileId <$> snd arrays)
           ++ List.filter
                (fun i => negb (downloadable drive format ef
                                             (store (backend m)) i))
                fileIds.
Proof.
  induction fileIds as [|fileId rest IH]; intros arrays m.
  - exists arrays, m. simpl. by rewrite !app_nil_r.
  - destruct (batch_round_spec format ef arrays fileId m)
      as (arrays1 & m1 & Hround & Hstore & Hids).
    destruct (IH arrays1 m1) as (arrays2 & m2 & Hloop & Hstore2 & Hgot & Hlost).
    exists arrays2, m2. rewrite for_of_acc_cons, bind_run, Hround.
    split; [done|]. split; [congruence|].
    rewrite Hstore in Hgot, Hlost. rewrite Hgot, Hlost. simpl.
    destruct (downloadable drive format ef (store (backend m)) fileId);
      simpl; destruct Hids as [-> ->]; by rewrite <- ?app_assoc.
Qed.

Lemma batch_download_run fileIds format ef m :
  exists downloaded failed m',
    batch_download drive fileIds format ef m
    = (Ok (mkBatchResponse downloaded failed (length fileIds)
                           (length downloaded) (length failed)), m')
    /\ store (backend m') = store (backend m)
    /\ got_fileId <$> downloaded
       = List.filter (downloadable drive format ef (store (backend m)))
                     fileIds
    /\ lost_fileId <$> failed
       = List.filter
           (fun i => negb (downloadable drive format ef (store (backend m)) i))
           fileIds.
Proof.
  destruct (batch_loop_spec format ef fileIds ([], []) m)
    as ([downloaded failed] & m' & Hloop & Hstore & Hgot & Hlost).
  exists downloaded, failed, m'. split; [|done].
  unfold batch_download. apply handle_ok. by rewrite bind_run, Hloop.
Qed.

Lemma filter_split_length {A} (f : A -> bool) (l : list A) :
  (length (List.filter f l) + length (List.filter (fun x => negb (f x)) l)
   = length l)%nat.
Proof.
  induction l as [|x l IH]; simpl; [done|].
  destruct (f x); simpl; lia.
Qed.

(** X12: [batch_download] fails as a whole only when there is no client:
    then it throws [Drive client not initialized ...] before anything is
    requested.  With a client it never does: whatever the backend answers,
    for files that are missing or refused too, it returns a response, in
    which [totalRequested] is the number of ids asked for and
    [successCount] and [errorCount], the sizes of [downloaded] and
    [failed], add up to it.  The backend is left as it was either way. *)
Theorem batch_download_always_answers fileIds format ef m :
  (let r := with_client None
              (fun client : DriveMore St =>
                 batch_download client fileIds format ef) m in
   fst r = Throw NOT_INITIALIZED
   /\ sent m r = []
   /\ store (backend (snd r)) = store (backend m))
  /\ (let r := with_client (Some drive)
                 (fun client => batch_download client fileIds format ef) m in
      exists resp,
        fst r = Ok resp
        /\ batch_totalRequested resp = length fileIds
        /\ batch_successCount resp = length (batch_downloaded resp)
        /\ batch_errorCount resp = length (batch_failed resp)
        /\ (batch_successCount resp + batch_errorCount resp
            = batch_totalRequested resp)%nat
        /\ store (backend (snd r)) = store (backend m)).
Proof.
  split.
  - cbv zeta. unfold with_client, sent. simpl.
    by rewrite drop_all.
  - cbv zeta. unfold with_client.
    destruct (batch_download_run fileIds format ef m)
      as (downloaded & failed & m' & -> & Hstore & Hgot & Hlost).
    eexists. split; [reflexivity|]. simpl. repeat split; try done.
    rewrite <- (length_fmap got_fileId downloaded),
            <- (length_fmap lost_fileId failed), Hgot, Hlost.
    apply filter_split_length.
Qed.

(** X13: [batch_download] sorts the ids it was given into [downloaded] and
    [failed] and keeps their order in each, repeated ids included:
    [downloaded] holds the ids for which the backend answers both the
    metadata read and the download, [failed] holds the others, so one
    failing file does not keep the ones after it from being downloaded. *)
Theorem batch_download_sorts_ids fileIds format ef m :
  let r := batch_download drive fileIds format ef m in
  exists resp,
    fst r = Ok resp
    /\ got_fileId <$> batch_downloaded resp
       = List.filter (downloadable drive format ef (store (backend m)))
                     fileIds
    /\ lost_fileId <$> batch_failed resp
       = List.filter
           (fun i => negb (downloadable drive format ef (store (backend m)) i))
           fileIds.
Proof.
  cbv zeta.
  destruct (batch_download_run fileIds format ef m)
    as (downloaded & failed & m' & -> & Hstore & Hgot & Hlost).
  eexists. split; [reflexivity|]. done.
Qed.

(** *** export_file *)

Lemma export_format_in_table format :
  exists v,
    own_property (export_format_name format) formatMap = Some v
    /\ formatMap_get (export_format_name format) = MimeStr v.
Proof. destruct format; eexists; split; reflexivity. Qed.

(** X14: [export_file] refuses a file that is not a Workspace file: after
    the metadata read it throws [Export is only available ...] and sends no
    export request.  For a Workspace file and [returnAs = 'url'] it sends
    no export request either: the response carries the export URL, whose
    [mimeType] parameter is the URI-encoded MIME type of the format table.
    The backend is left as it was. *)
Theorem export_file_guards fileId format returnAs m meta :
  files_get (more_core drive) fileId (store (backend m)) = inr meta ->
  let r := export_file drive fileId format returnAs m in
  (String.prefix WORKSPACE_PREFIX (file_mimeType meta) = false ->
   fst r = Throw NOT_WORKSPACE /\ sent m r = [RGetMeta fileId])
  /\ (String.prefix WORKSPACE_PREFIX (file_mimeType meta) = true ->
      returnAs = RAurl ->
      exists v,
        own_property (export_format_name format) formatMap = Some v
        /\ fst r
           = Ok (ExportUrl (file_name meta) format
                   ("https://www.googleapis.com/drive/v3/files/" +:+ fileId
                    +:+ "/export?mimeType=" +:+ encodeURIComponent v)
                   (MimeStr v))
        /\ sent m r = [RGetMeta fileId])
  /\ store (backend (snd r)) = store (backend m).
Proof.
  intros Hmeta. cbv zeta. unfold export_file. rewrite handle_run, bind_run.
  unfold get_meta. rewrite ask_read_run, Hmeta. cbn [of_result].
  destruct (String.prefix WORKSPACE_PREFIX (file_mimeType meta)); cbn [negb].
  - split; [done|]. split.
    + intros _ ->. destruct (export_format_in_table format) as (v & Hv & Hget).
      exists v. split; [done|]. rewrite Hget. unfold ret.
      rewrite sent_after_requests. done.
    + destruct (export_format_in_table format) as (v & _ & ->).
      destruct returnAs; try done.
      all: rewrite bind_run; unfold export; rewrite ask_read_run;
        destruct (files_export drive _ _ _ _); done.
  - unfold throw. split; [|done]. intros _. split; [done|].
    unfold sent. simpl. by rewrite drop_app_length.
Qed.

(** *** delete_shared_drive *)

(** X15: without [allowItemDeletion], [delete_shared_drive] first asks for
    one file of the drive; if there is one it throws [Shared drive is not
    empty ...], sends no delete request and leaves the backend as it was.
    With [allowItemDeletion] it sends the delete request at once, without
    looking. *)
Theorem delete_shared_drive_guard driveId m :
  (forall response f fs,
      files_list_all_drives drive (drive_content_query driveId)
                            (store (backend m)) = inr response ->
      files response = Some (f :: fs) ->
      let r := delete_shared_drive drive driveId false m in
      fst r = Throw DRIVE_NOT_EMPTY
      /\ sent m r = [RListAllDrives (drive_content_query driveId)]
      /\ store (backend (snd r)) = store (backend m))
  /\ (let r := delete_shared_drive drive driveId true m in
      sent m r = [RDrivesDelete driveId]
      /\ store (backend (snd r))
         = snd (drives_delete drive driveId (store (backend m)))).
Proof.
  split.
  - intros response f fs Hlist Hfiles. cbv zeta.
    unfold delete_shared_drive. rewrite handle_run, !bind_run.
    cbn [negb]. rewrite bind_run, ask_read_run, Hlist. cbn [of_result].
    rewrite Hfiles. unfold throw. unfold sent. simpl.
    by rewrite drop_app_length.
  - cbv zeta. unfold delete_shared_drive. rewrite handle_run, bind_run.
    cbn [negb]. change (@ret (Logged St) unit tt m) with (@Ok unit tt, m).
    cbv beta iota. rewrite bind_run, ask_run.
    destruct (drives_delete drive driveId (store (backend m))) as [[e|[]] s'];
      cbn [of_result]; unfold sent; simpl; by rewrite drop_app_length.
Qed.

(** *** share_file_or_folder *)

(** X16: the permission that [share_file_or_folder] asks for has the type
    and role given and at most one of [emailAddress], [domain] and
    [allowFileDiscovery]: an address only for the types [user] and [group]
    (the truthy [email] given), a domain only for the type [domain], and
    for the type [anyone] always [allowFileDiscovery] and never an address,
    whatever [email] is. *)
Theorem share_permission_is_exclusive type role email domain discovery :
  let p := share_permission_of type role email domain discovery in
  perm_type p = type
  /\ perm_role p = role
  /\ (optional_fields p <= 1)%nat
  /\ match perm_emailAddress p with
     | Some e => given email = Some e /\ (type = PTuser \/ type = PTgroup)
     | None => True
     end
  /\ match perm_domain p with
     | Some d => given domain = Some d /\ type = PTdomain
     | None => True
     end
  /\ match type with
     | PTanyone =>
         perm_allowFileDiscovery p = Some discovery
         /\ perm_emailAddress p = None
     | _ => perm_allowFileDiscovery p = None
     end.
Proof.
  cbv zeta. unfold share_permission_of, optional_fields.
  destruct type, (given email) as [e|], (given domain) as [d|]; simpl;
    repeat split; auto.
Qed.

(** X17: [share_file_or_folder] grants first and looks up the links
    afterwards, and nothing is taken back: when the permission has been
    created and the lookup then fails, the handler throws the error of the
    lookup while the backend stays as the creation left it; no further
    request is sent. *)
Theorem share_is_not_undone fileId email role type domain notify msg discovery
    m granted s1 e :
  permissions_create drive fileId
    (share_permission_of type role email domain discovery) notify msg
    (store (backend m)) = (inr granted, s1) ->
  files_get_links drive fileId s1 = inl e ->
  let r := share_file_or_folder drive fileId email role type domain notify msg
             discovery m in
  fst r = Throw e
  /\ store (backend (snd r)) = s1
  /\ sent m r
     = [RPermissionsCreate fileId
          (share_permission_of type role email domain discovery) notify msg;
        RGetLinks fileId].
Proof.
  intros Hcreate Hlinks. cbv zeta.
  unfold share_file_or_folder. rewrite handle_run, bind_run, ask_run.
  rewrite Hcreate. cbn [of_result fst snd].
  rewrite bind_run. unfold get_links. rewrite ask_read_run.
  change (store (backend (after_requests ?rs ?s ?n))) with s.
  rewrite Hlinks. cbn [of_result].
  unfold sent. simpl. rewrite <- app_assoc. by rewrite drop_app_length.
Qed.

End MoreTools.

(** ** The recursive lister: how many requests it sends *)

Section ListerRequests.
Context {St : Type} (drive : Drive St).
Context (maxDepth : Z) (includeFiles includeFolders : bool)
        (mimeType : option string).

Local Notation "'trav'" :=
  (traverseFolder drive maxDepth includeFiles includeFolders mimeType).

Lemma folder_entries_push its it :
  folder_entries (its ++ [it])
  = (folder_entries its
     + if String.eqb (file_mimeType (item_file it)) FOLDER_MIME then 1 else 0)%nat.
Proof.
  unfold folder_entries. rewrite List.filter_app, length_app. simpl.
  by destruct (String.eqb _ _).
Qed.

Lemma traverseFolder_requests fuel :
  forall parentId depth path (m : Machine St),
    let m' := snd (trav fuel parentId depth path m) in
    (length (calls m') + folder_entries (allItems m)
     <= length (calls m) + folder_entries (allItems m') + 1)%nat.
Proof.
  induction fuel as [|fuel' IH]; intros parentId depth path m; cbv zeta.
  { simpl. lia. }
  rewrite traverseFolder_run.
  destruct ((maxDepth <=? depth) || bool_decide (parentId ∈ visited m)).
  { simpl. lia. }
  unfold try_catch. rewrite bind_run. unfold drive_files_list.
  destruct (files_list drive _ _) as [e|response]; cbn [of_result].
  { simpl. rewrite length_app. simpl. lia. }
  set (m0 := log_call _ _).
  assert (Hm0 : (length (calls m0) = length (calls m) + 1)%nat
                /\ allItems m0 = allItems m).
  { split; [|done]. unfold m0. simpl. rewrite length_app. simpl. lia. }
  assert (Hloop : forall l (n : Machine St),
             let n' := snd (for_of l (traverse_entry (trav fuel') depth path) n)
             in (length (calls n') + folder_entries (allItems n)
                 <= length (calls n) + folder_entries (allItems n'))%nat).
  { induction l as [|file l IHl]; intros n; cbv zeta; [simpl; lia|].
    simpl for_of. rewrite bind_run, traverse_entry_run.
    set (n1 := mkMachine _ _ _ (allItems n ++ _) _).
    assert (Hn1 : calls n1 = calls n
                  /\ folder_entries (allItems n1)
                     = (folder_entries (allItems n)
                        + if String.eqb (file_mimeType file) FOLDER_MIME
                          then 1 else 0)%nat).
    { split; [done|]. unfold n1. cbn [allItems].
      by rewrite folder_entries_push. }
    destruct Hn1 as [Hc1 Hf1].
    destruct (String.eqb (file_mimeType file) FOLDER_MIME).
    - specialize (IH (file_id file) (depth + 1) (child_path path file) n1).
      cbv zeta in IH. rewrite Hc1, Hf1 in IH.
      destruct (trav fuel' _ _ _ n1) as [[[]|e|] n2]; cbn [snd] in *;
        [|lia|lia].
      specialize (IHl n2). cbv zeta in IHl. lia.
    - change (@ret St unit tt n1) with (@Ok unit tt, n1). cbv beta iota.
      specialize (IHl n1). cbv zeta in IHl. rewrite Hc1, Hf1 in IHl. lia. }
  specialize (Hloop (default [] (files response)) m0). cbv zeta in Hloop.
  destruct Hm0 as [Hc0 Hi0]. rewrite Hi0 in Hloop.
  destruct (for_of _ _ m0) as [[[]|e|] m']; simpl in *; lia.
Qed.

(** X18: [list_folder_recursive] sends at most one request more than there
    are folder entries in its output: one for the start folder and at most
    one per folder it lists, whatever the backend answers. *)
Theorem lister_requests_are_bounded folderId k (m : Machine St) :
  let r := list_folder_recursive drive folderId maxDepth includeFiles
             includeFolders mimeType (enough maxDepth + k) m in
  (length (issued m r) <= 1 + folder_entries (items_of r))%nat.
Proof.
  cbv zeta. rewrite list_folder_recursive_run by lia.
  unfold issued, items_of. cbn [fst snd resp_items].
  pose proof (traverseFolder_requests (enough maxDepth + k) folderId 0 ""
                (snd (fresh_locals m))) as H.
  cbv zeta in H. rewrite length_drop.
  change (folder_entries (allItems (snd (fresh_locals m)))) with 0%nat in H.
  change (calls (snd (fresh_locals m))) with (calls m) in H. lia.
Qed.

End ListerRequests.

(** ** The handlers behind the query text

    What the store answers to the clauses of a query it answers to their
    text, as long as the values spliced into the text are plain. *)

Lemma append_cons x (a b : string) : String x a +:+ b = String x (a +:+ b).
Proof. reflexivity. Qed.

Lemma append_assoc (a b c : string) : (a +:+ b) +:+ c = a +:+ (b +:+ c).
Proof.
  induction a as [|x a IH]; [done|]. by rewrite !append_cons, IH.
Qed.

Lemma append_nil_r (a : string) : a +:+ "" = a.
Proof. induction a as [|x a IH]; [done|]. by rewrite append_cons, IH. Qed.

Lemma length_append (a b : string) :
  String.length (a +:+ b) = (String.length a + String.length b)%nat.
Proof.
  induction a as [|x a IH]; [done|]. rewrite append_cons. simpl.
  by rewrite IH.
Qed.

Lemma strip_prefix_append p s : strip_prefix p (p +:+ s) = Some s.
Proof.
  induction p as [|a p IH]; [done|]. rewrite append_cons. simpl.
  by rewrite Ascii.eqb_refl.
Qed.

Lemma read_literal_plain lit rest :
  plain lit = true ->
  read_literal (lit +:+ String "'" rest) = Some (lit, rest).
Proof.
  induction lit as [|c lit IH]; [done|].
  rewrite append_cons. simpl.
  intros [Hc Hlit]%andb_true_iff. unfold plain_char in Hc.
  apply andb_true_iff in Hc as [Hq Hb].
  apply negb_true_iff in Hq, Hb. rewrite Hq, Hb, (IH Hlit). done.
Qed.

Lemma read_quoted_plain after mk lit rest :
  plain lit = true ->
  read_quoted after mk (lit +:+ String "'" (after +:+ rest))
  = Some (mk lit, rest).
Proof.
  intros Hlit. unfold read_quoted.
  by rewrite (read_literal_plain _ _ Hlit), strip_prefix_append.
Qed.

Lemma read_term_parents X :
  read_term ("'" +:+ X) = read_quoted " in parents" InParents X.
Proof. reflexivity. Qed.

Lemma read_term_mime_eq X :
  read_term ("mimeType = '" +:+ X) = read_quoted "" MimeTypeEq X.
Proof. reflexivity. Qed.

Lemma read_term_mime_ne X :
  read_term ("mimeType != '" +:+ X) = read_quoted "" MimeTypeNe X.
Proof. reflexivity. Qed.

Lemma read_term_name X :
  read_term ("name = '" +:+ X) = read_quoted "" NameEq X.
Proof. reflexivity. Qed.

Lemma read_term_clause c rest :
  plain_clause c = true ->
  read_term (clause_text c +:+ rest) = Some (c, rest).
Proof.
  destruct c as [p| |mt|mt|n]; unfold clause_text; intros Hc;
    rewrite ?append_assoc.
  - rewrite read_term_parents.
    exact (read_quoted_plain " in parents" InParents p rest Hc).
  - reflexivity.
  - rewrite read_term_mime_eq.
    exact (read_quoted_plain "" MimeTypeEq mt rest Hc).
  - rewrite read_term_mime_ne.
    exact (read_quoted_plain "" MimeTypeNe mt rest Hc).
  - rewrite read_term_name.
    exact (read_quoted_plain "" NameEq n rest Hc).
Qed.

Lemma q_text_cons c c' cs :
  q_text (c :: c' :: cs) = clause_text c +:+ " and " +:+ q_text (c' :: cs).
Proof. reflexivity. Qed.

Lemma read_terms_step fuel' s :
  read_terms (Datatypes.S fuel') s
  = match read_term s with
    | Some (c, rest) =>
        if String.eqb rest "" then Some [c]
        else match strip_prefix " and " rest with
             | Some rest' =>
                 match read_terms fuel' rest' with
                 | Some cs => Some (c :: cs)
                 | None => None
                 end
             | None => None
             end
    | None => None
    end.
Proof. reflexivity. Qed.

Lemma read_terms_text cs :
  forall fuel,
    cs <> [] ->
    forallb plain_clause cs = true ->
    (length cs <= fuel)%nat ->
    read_terms fuel (q_text cs) = Some cs.
Proof.
  induction cs as [|c cs IH]; intros fuel Hne Hplain Hfuel; [done|].
  destruct fuel as [|fuel']; [simpl in Hfuel; lia|].
  simpl in Hplain. apply andb_true_iff in Hplain as [Hc Hcs].
  destruct cs as [|c' cs].
  - change (q_text [c]) with (clause_text c).
    rewrite <- (append_nil_r (clause_text c)), read_terms_step.
    by rewrite (read_term_clause c "" Hc).
  - rewrite q_text_cons, read_terms_step.
    rewrite (read_term_clause c _ Hc).
    change (String.eqb (" and " +:+ q_text (c' :: cs)) "") with false.
    cbv iota. rewrite strip_prefix_append.
    rewrite IH; [done|done|done|simpl in *; lia].
Qed.

Lemma clause_text_length c : (1 <= String.length (clause_text c))%nat.
Proof. destruct c; unfold clause_text; rewrite ?length_append; simpl; lia. Qed.

Lemma q_text_length cs : (length cs <= String.length (q_text cs))%nat.
Proof.
  induction cs as [|c cs IH]; [simpl; lia|].
  destruct cs as [|c' cs].
  - change (q_text [c]) with (clause_text c).
    pose proof (clause_text_length c). simpl. lia.
  - rewrite q_text_cons, !length_append.
    pose proof (clause_text_length c). simpl in *. lia.
Qed.

Lemma read_query_text cs :
  forallb plain_clause cs = true -> read_query (q_text cs) = Some cs.
Proof.
  intros Hplain. destruct cs as [|c cs]; [reflexivity|].
  unfold read_query.
  pose proof (q_text_length (c :: cs)) as Hlen.
  assert (Hne : String.eqb (q_text (c :: cs)) "" = false).
  { destruct (q_text (c :: cs)); [simpl in Hlen; lia|done]. }
  rewrite Hne. by apply read_terms_text.
Qed.

Lemma text_list_plain p s :
  forallb plain_clause (q p) = true -> text_list p s = store_list p s.
Proof.
  intros Hplain. unfold text_list. rewrite (read_query_text _ Hplain).
  by destruct p.
Qed.

Lemma plain_pad n : plain (pad n) = true.
Proof. induction n as [|n IH]; [done|]. simpl. exact IH. Qed.

Lemma plain_store_in s f :
  plain_store s = true -> f ∈ entries s -> plain (file_id f) = true.
Proof.
  unfold plain_store. rewrite forallb_forall. intros H Hin.
  by apply H, list_elem_of_In.
Qed.

Lemma store_create_plain b s :
  plain_store s = true ->
  plain_store (snd (store_create b s)) = true
  /\ match fst (store_create b s) with
     | inr i => plain i = true
     | inl _ => True
     end.
Proof.
  intros Hs. unfold store_create. destruct (refused s _); [done|]. simpl.
  split; [|apply plain_pad].
  unfold plain_store in *. simpl. rewrite forallb_app, Hs. simpl.
  by rewrite plain_pad.
Qed.

Lemma folder_query_plain folderName cur :
  plain folderName = true -> plain cur = true ->
  forallb plain_clause (q (folder_query folderName cur)) = true.
Proof. intros Hn Hc. simpl. by rewrite Hn, Hc. Qed.

(** With plain segments on a store of plain ids, the client that is sent
    the text answers every request of the resolver as the store does. *)
Lemma resolve_loop_text path b folders :
  forall cur (m : Machine Store),
    forallb plain folders = true ->
    plain cur = true ->
    plain_store (backend m) = true ->
    for_of_acc folders cur (resolve_step text_drive path b) m
    = for_of_acc folders cur (resolve_step store_drive path b) m
    /\ plain_store
         (backend (snd (for_of_acc folders cur
                          (resolve_step store_drive path b) m))) = true.
Proof.
  induction folders as [|folderName rest IH]; intros cur m Hf Hcur Hs;
    [done|].
  simpl in Hf. apply andb_true_iff in Hf as [Hname Hrest].
  rewrite !for_of_acc_cons, !bind_run, !resolve_step_run.
  cbn [files_list text_drive store_drive].
  rewrite (text_list_plain _ _ (folder_query_plain _ _ Hname Hcur)).
  destruct (store_list (folder_query folderName cur) (backend m))
    as [e|response] eqn:Hlist; [done|].
  assert (Hcreate :
            forall n : Machine Store,
              backend n = backend m ->
              (match drive_files_create text_drive
                       (mkCreateBody folderName FOLDER_MIME [cur]) n with
               | (Ok a, m') =>
                   for_of_acc rest a (resolve_step text_drive path b) m'
               | (Throw e, m') => (Throw e, m')
               | (OutOfFuel, m') => (OutOfFuel, m')
               end)
              = (match drive_files_create store_drive
                         (mkCreateBody folderName FOLDER_MIME [cur]) n with
                 | (Ok a, m') =>
                     for_of_acc rest a (resolve_step store_drive path b) m'
                 | (Throw e, m') => (Throw e, m')
                 | (OutOfFuel, m') => (OutOfFuel, m')
                 end)
              /\ plain_store
                   (backend
                      (snd (match drive_files_create store_drive
                                    (mkCreateBody folderName FOLDER_MIME [cur])
                                    n with
                            | (Ok a, m') =>
                                for_of_acc rest a
                                  (resolve_step store_drive path b) m'
                            | (Throw e, m') => (Throw e, m')
                            | (OutOfFuel, m') => (OutOfFuel, m')
                            end))) = true).
  { intros n Hn. unfold drive_files_create.
    cbn [files_create text_drive store_drive]. rewrite Hn.
    destruct (store_create_plain (mkCreateBody folderName FOLDER_MIME [cur])
                (backend m) Hs) as [Hs1 Hi].
    destruct (store_create _ (backend m)) as [[e|i] s1]; simpl in *; [done|].
    by apply IH. }
  destruct (files response) as [[|f fs]|] eqn:Hfiles.
  - destruct b; [by apply Hcreate|done].
  - apply IH; [done| |done].
    apply store_list_sound in Hlist. rewrite Hfiles in Hlist. simpl in Hlist.
    apply Forall_cons in Hlist as [[Hin _] _].
    by eapply plain_store_in.
  - destruct b; [by apply Hcreate|done].
Qed.

Lemma get_folder_id_for_path_text path b (m : Machine Store) :
  forallb plain (path_folders path) = true ->
  plain_store (backend m) = true ->
  get_folder_id_for_path text_drive path b m
  = get_folder_id_for_path store_drive path b m
  /\ plain_store
       (backend (snd (get_folder_id_for_path store_drive path b m))) = true.
Proof.
  intros Hf Hs. rewrite !get_folder_id_for_path_run.
  destruct (resolve_loop_text path b (path_folders path) "root" m Hf eq_refl Hs)
    as [-> Hplain].
  split; [done|].
  destruct (for_of_acc _ _ _ m) as [[x|e|] m']; done.
Qed.

(** C7, and the input where the code departs from it.  For a path whose
    segments hold neither quote nor backslash, on a store whose ids hold
    none: once [get_folder_id_for_path] has answered with
    [createIfNotExists] set, creating what was missing, asking again for
    the same path without it, against the backend as the first call left
    it, answers with the same folder id and changes nothing.  The segment
    is spliced into the query text as it is, though, while the folder is
    created under the segment as its name.  For the path [x' and name = 'x]
    the text asks for a folder named [x]: on a store without files the
    first call creates a folder named [x' and name = 'x], the second call
    does not find it and throws [Folder not found], and a further call with
    [createIfNotExists] creates a second folder. *)
Theorem resolve_after_create_same_id :
  (forall path (m m1 : Machine Store) r,
      forallb plain (path_folders path) = true ->
      plain_store (backend m) = true ->
      get_folder_id_for_path text_drive path true m = (Ok r, m1) ->
      let again := get_folder_id_for_path text_drive path false m1 in
      fst again = Ok r
      /\ resolved_id (fst again) = Some (resp_folderId r)
      /\ backend (snd again) = backend m1)
  /\ (let first := get_folder_id_for_path text_drive QUOTED true (boot bare) in
      let again :=
        get_folder_id_for_path text_drive QUOTED false (snd first) in
      let once_more :=
        get_folder_id_for_path text_drive QUOTED true (snd first) in
      path_folders QUOTED = [QUOTED]
      /\ q_text (q (folder_query QUOTED "root"))
         = "name = 'x' and name = 'x' and mimeType = 'application/vnd.google-apps.folder' and 'root' in parents and trashed = false"
      /\ fst first = Ok (mkPathResponse QUOTED "nnnnn")
      /\ entries (backend (snd first))
         = [mkFile "nnnnn" QUOTED FOLDER_MIME None "" ["root"] false]
      /\ fst again = Throw (not_found QUOTED QUOTED)
      /\ fst once_more = Ok (mkPathResponse QUOTED "nnnnnn")).
Proof.
  split.
  - intros path m m1 r Hf Hs Hrun. cbv zeta.
    destruct (get_folder_id_for_path_text path true m Hf Hs) as [Heq Hs1].
    rewrite Heq in Hrun. rewrite Hrun in Hs1. simpl in Hs1.
    destruct (get_folder_id_for_path_text path false m1 Hf Hs1) as [-> _].
    exact (store_resolve_replay path m m1 r Hrun).
  - vm_compute. repeat split; reflexivity.
Qed.

(** X2: for a path whose segments hold neither quote nor backslash, on a
    store whose ids hold none, the folder id that [get_folder_id_for_path]
    answers with is where the segments of the path lead from ['root'] in
    the store as the call leaves it: each segment names a folder that is
    not trashed and has the folder of the segment before it as a parent.
    The store has only grown: what was there is kept, in order. *)
Theorem resolved_id_is_where_the_path_leads path b (m m' : Machine Store) r :
  forallb plain (path_folders path) = true ->
  plain_store (backend m) = true ->
  get_folder_id_for_path text_drive path b m = (Ok r, m') ->
  leads (backend m') "root" (path_folders path) (resp_folderId r)
  /\ extends (backend m) (backend m')
  /\ resp_path r = path.
Proof.
  intros Hf Hs Hrun.
  destruct (get_folder_id_for_path_text path b m Hf Hs) as [Heq _].
  rewrite Heq in Hrun. exact (store_resolved_id_leads path b m m' r Hrun).
Qed.

Section ListerText.
Context (maxDepth : Z) (includeFiles includeFolders : bool)
        (mimeType : option string).

Local Notation "'trav_text'" :=
  (traverseFolder text_drive maxDepth includeFiles includeFolders mimeType).
Local Notation "'trav_store'" :=
  (traverseFolder store_drive maxDepth includeFiles includeFolders mimeType).
Local Notation "'tclauses'" :=
  (traverse_clauses includeFiles includeFolders mimeType).

Lemma traverse_clauses_plain parentId :
  includeFiles = false \/ plain_filter mimeType = true ->
  plain parentId = true ->
  forallb plain_clause (tclauses parentId) = true.
Proof.
  intros Hfilter Hp. unfold traverse_clauses.
  rewrite !forallb_app. simpl. rewrite Hp. simpl.
  destruct includeFiles, includeFolders; simpl;
    destruct mimeType as [mt|]; simpl; try done;
    destruct (truthy mt); simpl; try done;
    destruct Hfilter as [|Hmt]; try done; simpl in Hmt; by rewrite Hmt.
Qed.

(** With plain ids and a plain filter, the client that is sent the text
    answers every request of the traversal as the store does. *)
Lemma traverseFolder_text (s : Store) :
  includeFiles = false \/ plain_filter mimeType = true ->
  plain_store s = true ->
  forall fuel parentId depth path (m : Machine Store),
    plain parentId = true ->
    backend m = s ->
    trav_text fuel parentId depth path m
    = trav_store fuel parentId depth path m.
Proof.
  intros Hfilter Hs.
  induction fuel as [|fuel' IH]; intros parentId depth path m Hp Hm; [done|].
  rewrite !traverseFolder_run.
  destruct ((maxDepth <=? depth) || bool_decide (parentId ∈ visited m));
    [done|].
  unfold try_catch. rewrite !bind_run. unfold drive_files_list.
  cbn [files_list text_drive store_drive].
  unfold traverse_query at 1.
  rewrite text_list_plain
    by (cbn [q]; by apply traverse_clauses_plain).
  fold (traverse_query includeFiles includeFolders mimeType parentId).
  cbn [backend visited_add snd].
  rewrite Hm.
  destruct (store_list _ s) as [e|response] eqn:Hlist; [done|].
  apply store_list_sound in Hlist. cbn [of_result].
  match goal with
  | |- context [for_of _ _ ?n] => set (m0 := n)
  end.
  assert (Hloop : forall l (n : Machine Store),
             Forall (fun f => f ∈ entries s) l ->
             backend n = s ->
             for_of l (traverse_entry (trav_text fuel') depth path) n
             = for_of l (traverse_entry (trav_store fuel') depth path) n).
  { induction l as [|file l IHl]; intros n Hl Hn; [done|].
    apply Forall_cons in Hl as [Hin Hl].
    simpl for_of. rewrite !bind_run, !traverse_entry_run.
    match goal with
    | |- context [_ (mkMachine ?a ?b ?c ?d ?e)] =>
        set (n1 := mkMachine a b c d e)
    end.
    assert (Hstep : (if String.eqb (file_mimeType file) FOLDER_MIME
                     then trav_text fuel' (file_id file) (depth + 1)
                                    (child_path path file)
                     else ret tt) n1
                    = (if String.eqb (file_mimeType file) FOLDER_MIME
                       then trav_store fuel' (file_id file) (depth + 1)
                                       (child_path path file)
                       else ret tt) n1).
    { destruct (String.eqb _ _); [|done].
      apply IH; [by eapply plain_store_in|done]. }
    rewrite Hstep.
    assert (Hback : backend
                      (snd ((if String.eqb (file_mimeType file) FOLDER_MIME
                             then trav_store fuel' (file_id file) (depth + 1)
                                             (child_path path file)
                             else ret tt) n1)) = s).
    { destruct (String.eqb _ _); [|done].
      by apply (traverseFolder_backend store_drive). }
    revert Hback.
    generalize ((if String.eqb (file_mimeType file) FOLDER_MIME
                 then trav_store fuel' (file_id file) (depth + 1)
                                 (child_path path file)
                 else ret tt) n1).
    intros [[[]|e|] n2] Hback; [|done|done].
    by apply IHl. }
  rewrite Hloop; [done| |done].
  eapply Forall_impl; [exact Hlist|]. by intros f [].
Qed.

Lemma list_folder_recursive_text (s : Store) folderId k :
  includeFiles = false \/ plain_filter mimeType = true ->
  plain_store s = true ->
  plain folderId = true ->
  list_folder_recursive text_drive folderId maxDepth includeFiles
    includeFolders mimeType (enough maxDepth + k) (boot s)
  = list_folder_recursive store_drive folderId maxDepth includeFiles
      includeFolders mimeType (enough maxDepth + k) (boot s).
Proof.
  intros Hfilter Hs Hp. rewrite !list_folder_recursive_run by lia.
  cbv zeta. by rewrite (traverseFolder_text s Hfilter Hs).
Qed.

End ListerText.

(** X7: when the start folder's id, the MIME filter and the ids of the
    store hold neither quote nor backslash, every entry that
    [list_folder_recursive] lists is a file the store holds, and none is in
    the trash, whatever the options. *)
Theorem listed_entries_are_live_files (s : Store) folderId maxDepth
    includeFiles includeFolders mimeType k :
  plain folderId = true ->
  plain_filter mimeType = true ->
  plain_store s = true ->
  Forall (fun it => item_file it ∈ entries s
                    /\ file_trashed (item_file it) = false)
         (items_of (list_folder_recursive text_drive folderId maxDepth
                      includeFiles includeFolders mimeType
                      (enough maxDepth + k) (boot s))).
Proof.
  intros Hp Hfilter Hs.
  rewrite list_folder_recursive_text by auto.
  apply store_listing_live.
Qed.

(** X8: with [includeFiles = false], when the start folder's id and the
    ids of the store hold neither quote nor backslash, the listing holds
    folders only, at every depth, whatever [includeFolders] and the MIME
    filter are (the filter is not part of the query then). *)
Theorem folders_only_listing (s : Store) folderId maxDepth includeFolders
    mimeType k :
  plain folderId = true ->
  plain_store s = true ->
  Forall (fun it => file_mimeType (item_file it) = FOLDER_MIME)
         (items_of (list_folder_recursive text_drive folderId maxDepth
                      false includeFolders mimeType
                      (enough maxDepth + k) (boot s))).
Proof.
  intros Hp Hs.
  rewrite list_folder_recursive_text by auto.
  apply store_listing_folders_only.
Qed.

(** ** The further properties at concrete inputs *)

Lemma witness_missing_segment_zzz :
  path_folders "A/zzz/B" = ["A"] ++ "zzz" :: ["B"]
  /\ fst (get_folder_id_for_path store_drive "A/zzz/B" false (boot fixture))
     = Throw (mkError "Folder not found: zzz in path A/zzz/B").
Proof.
  assert (Hpath : path_folders "A/zzz/B" = ["A"] ++ "zzz" :: ["B"])
    by reflexivity.
  assert (Hwalk : resolves_to store_drive (backend (boot fixture)) "root"
                              ["A"] "A").
  { exists folderA, []. split; reflexivity. }
  assert (Hnone : answers_nothing store_drive (backend (boot fixture))
                                  "zzz" "A").
  { exists (mkListResponse (Some [])). split; [reflexivity|]. by right. }
  split; [exact Hpath|].
  exact (proj1 (missing_segment_is_reported store_drive "A/zzz/B" ["A"] "zzz"
                  ["B"] "A" (boot fixture) Hpath Hwalk Hnone)).
Defined.


Lemma witness_format_PDF :
  own_property (to_lower "PDF") formatMap = Some "application/pdf"
  /\ download_export_mime "application/vnd.google-apps.document" (Some "PDF")
     = MimeStr "application/pdf".
Proof.
  assert (H : own_property (to_lower "PDF") formatMap
              = Some "application/pdf") by reflexivity.
  split; [exact H|].
  exact (proj1 (download_export_format_names
                  "application/vnd.google-apps.document" "PDF") _ H).
Defined.

Lemma witness_default_export_type :
  given (Some "") = None
  /\ (download_export_mime "application/vnd.google-apps.drawing" (Some "")
      = MimeStr "text/plain"
      \/ download_export_mime "application/vnd.google-apps.drawing" (Some "")
         = MimeStr "text/csv"
      \/ download_export_mime "application/vnd.google-apps.drawing" (Some "")
         = MimeStr "image/png").
Proof.
  assert (H : given (Some "") = None) by reflexivity.
  split; [exact H|].
  exact (download_default_export_types "application/vnd.google-apps.drawing"
           (Some "") H).
Defined.

Lemma witness_export_plain_file :
  files_get (more_core store_more) "x" (store (backend (boot_more library)))
  = inr fileX
  /\ String.prefix WORKSPACE_PREFIX (file_mimeType fileX) = false
  /\ fst (export_file store_more "x" EFpdf RAcontent (boot_more library))
     = Throw NOT_WORKSPACE.
Proof.
  assert (Hmeta : files_get (more_core store_more) "x"
                            (store (backend (boot_more library)))
                  = inr fileX) by reflexivity.
  assert (Hplain : String.prefix WORKSPACE_PREFIX (file_mimeType fileX)
                   = false) by reflexivity.
  split; [exact Hmeta|]. split; [exact Hplain|].
  exact (proj1 (proj1 (export_file_guards store_more "x" EFpdf RAcontent
                         (boot_more library) fileX Hmeta) Hplain)).
Defined.

Lemma witness_delete_drive_with_content :
  files_list_all_drives store_more (drive_content_query "root")
                        (store (backend (boot_more library)))
  = inr (mkListResponse (Some [folderA]))
  /\ fst (delete_shared_drive store_more "root" false (boot_more library))
     = Throw DRIVE_NOT_EMPTY.
Proof.
  assert (Hlist : files_list_all_drives store_more (drive_content_query "root")
                    (store (backend (boot_more library)))
                  = inr (mkListResponse (Some [folderA]))) by reflexivity.
  split; [exact Hlist|].
  exact (proj1 (proj1 (delete_shared_drive_guard store_more "root"
                         (boot_more library))
                      (mkListResponse (Some [folderA])) folderA [] Hlist
                      eq_refl)).
Defined.

Lemma witness_share_unknown_file :
  files_get_links store_more "nope" library
  = inl (mkError "File not found: nope")
  /\ fst (share_file_or_folder store_more "nope" (Some "a@b.c") Rreader PTuser
            None true None false (boot_more library))
     = Throw (mkError "File not found: nope").
Proof.
  assert (Hlinks : files_get_links store_more "nope" library
                   = inl (mkError "File not found: nope")) by reflexivity.
  split; [exact Hlinks|].
  exact (proj1 (share_is_not_undone store_more "nope" (Some "a@b.c") Rreader
                  PTuser None true None false (boot_more library)
                  _ library _ eq_refl Hlinks)).
Defined.

Lemma witness_create_then_resolve_a_b :
  forallb plain (path_folders "a/b") = true
  /\ plain_store (backend (boot fixture)) = true
  /\ get_folder_id_for_path text_drive "a/b" true (boot fixture)
     = (Ok (mkPathResponse "a/b" "nnnnnn"),
        snd (get_folder_id_for_path text_drive "a/b" true (boot fixture)))
  /\ fst (get_folder_id_for_path text_drive "a/b" false
            (snd (get_folder_id_for_path text_drive "a/b" true
                    (boot fixture))))
     = Ok (mkPathResponse "a/b" "nnnnnn").
Proof.
  assert (H1 : forallb plain (path_folders "a/b") = true) by reflexivity.
  assert (H2 : plain_store (backend (boot fixture)) = true) by reflexivity.
  assert (H : get_folder_id_for_path text_drive "a/b" true (boot fixture)
              = (Ok (mkPathResponse "a/b" "nnnnnn"),
                 snd (get_folder_id_for_path text_drive "a/b" true
                        (boot fixture)))).
  { vm_compute. reflexivity. }
  split; [exact H1|]. split; [exact H2|]. split; [exact H|].
  apply (proj1 (proj1 resolve_after_create_same_id "a/b" (boot fixture) _ _
                      H1 H2 H)).
Defined.

Lemma witness_path_a_b_leads :
  forallb plain (path_folders "a/b") = true
  /\ plain_store (backend (boot fixture)) = true
  /\ get_folder_id_for_path text_drive "a/b" true (boot fixture)
     = (Ok (mkPathResponse "a/b" "nnnnnn"),
        snd (get_folder_id_for_path text_drive "a/b" true (boot fixture)))
  /\ leads (backend (snd (get_folder_id_for_path text_drive "a/b" true
                            (boot fixture))))
           "root" (path_folders "a/b") "nnnnnn".
Proof.
  assert (H1 : forallb plain (path_folders "a/b") = true) by reflexivity.
  assert (H2 : plain_store (backend (boot fixture)) = true) by reflexivity.
  assert (H : get_folder_id_for_path text_drive "a/b" true (boot fixture)
              = (Ok (mkPathResponse "a/b" "nnnnnn"),
                 snd (get_folder_id_for_path text_drive "a/b" true
                        (boot fixture)))).
  { vm_compute. reflexivity. }
  split; [exact H1|]. split; [exact H2|]. split; [exact H|].
  exact (proj1 (resolved_id_is_where_the_path_leads "a/b" true (boot fixture)
                  _ _ H1 H2 H)).
Defined.

Lemma witness_fixture_entries_live :
  plain "root" = true
  /\ plain_filter None = true
  /\ plain_store fixture = true
  /\ Forall (fun it => item_file it ∈ entries fixture
                       /\ file_trashed (item_file it) = false)
            (items_of (list_folder_recursive text_drive "root" 3 true true
                         None (enough 3 + 0) (boot fixture))).
Proof.
  assert (H1 : plain "root" = true) by reflexivity.
  assert (H2 : plain_filter None = true) by reflexivity.
  assert (H3 : plain_store fixture = true) by reflexivity.
  split; [exact H1|]. split; [exact H2|]. split; [exact H3|].
  exact (listed_entries_are_live_files fixture "root" 3 true true
           None 0%nat H1 H2 H3).
Defined.

Lemma witness_fixture_folders_only :
  plain "root" = true
  /\ plain_store fixture = true
  /\ Forall (fun it => file_mimeType (item_file it) = FOLDER_MIME)
            (items_of (list_folder_recursive text_drive "root" 3 false true
                         None (enough 3 + 0) (boot fixture))).
Proof.
  assert (H1 : plain "root" = true) by reflexivity.
  assert (H3 : plain_store fixture = true) by reflexivity.
  split; [exact H1|]. split; [exact H3|].
  exact (folders_only_listing fixture "root" 3 true None 0%nat H1 H3).
Defined.
